(** * Shallow embedding of the task-execution substrate of chat-with-youtube

    - [WorkerPool]      : src/src/utils/workerPool.ts
    - [YtBatch]         : src/src/lib/youtube/batchProcessor.ts ([BatchProcessor.process])
    - [ChunkBatch]      : src/unnamed/part_001 ([BatchProcessor.processChunkWithRetry])
    - [SimpleCache]     : src/unnamed/part_005 ([Cache])
    - [CacheMgr]        : src/src/utils/smartCorrection.ts ([CacheManager])

    Plain Standard Library development: lists, strings, Z, and the
    binary64 arithmetic of [SpecFloat] for JavaScript numbers. *)

From Stdlib Require Import String List ZArith Lia Bool Arith.
From Stdlib Require Import Ascii Sorted Permutation.
From Stdlib Require SpecFloat.
Import ListNotations.
Open Scope list_scope.

(** ------------------------------------------------------------------ *)
(** * Worker pool *)

Module WorkerPool.

(** A worker is identified by the order in which [new Worker(...)] ran. *)
Definition Worker := nat.

(** [WorkerTask]; the random id is modelled by a fresh counter, the
    payload and the promise callbacks are not needed. *)
Record WorkerTask := mkTask { task_id : nat; task_type : string }.

(** Fields of the class, plus the runtime facts the event handlers depend on:
    [posted] are [worker.postMessage] calls not yet answered (worker, task id),
    [timers] are pending [setTimeout] callbacks (task id, worker),
    [alive] are worker threads that are running,
    [exiting] are workers whose ['exit'] event is still to be delivered,
    [settled] are task ids whose promise was resolved or rejected,
    [initPending] counts the [createWorker] calls of [initialize] still to run. *)
Record Pool := mkPool {
  workers : list Worker;
  idleWorkers : list Worker;
  taskQueue : list WorkerTask;
  workerScripts : list (string * string);
  posted : list (Worker * nat);
  timers : list (nat * Worker);
  alive : list Worker;
  exiting : list Worker;
  settled : list nat;
  completedTasks : nat;
  failedTasks : nat;
  nextWorker : nat;
  nextTask : nat;
  initPending : nat
}.

Definition set_workers s l := mkPool l s.(idleWorkers) s.(taskQueue) s.(workerScripts) s.(posted) s.(timers) s.(alive) s.(exiting) s.(settled) s.(completedTasks) s.(failedTasks) s.(nextWorker) s.(nextTask) s.(initPending).
Definition set_idle s l := mkPool s.(workers) l s.(taskQueue) s.(workerScripts) s.(posted) s.(timers) s.(alive) s.(exiting) s.(settled) s.(completedTasks) s.(failedTasks) s.(nextWorker) s.(nextTask) s.(initPending).
Definition set_queue s l := mkPool s.(workers) s.(idleWorkers) l s.(workerScripts) s.(posted) s.(timers) s.(alive) s.(exiting) s.(settled) s.(completedTasks) s.(failedTasks) s.(nextWorker) s.(nextTask) s.(initPending).
Definition set_scripts s l := mkPool s.(workers) s.(idleWorkers) s.(taskQueue) l s.(posted) s.(timers) s.(alive) s.(exiting) s.(settled) s.(completedTasks) s.(failedTasks) s.(nextWorker) s.(nextTask) s.(initPending).
Definition set_posted s l := mkPool s.(workers) s.(idleWorkers) s.(taskQueue) s.(workerScripts) l s.(timers) s.(alive) s.(exiting) s.(settled) s.(completedTasks) s.(failedTasks) s.(nextWorker) s.(nextTask) s.(initPending).
Definition set_timers s l := mkPool s.(workers) s.(idleWorkers) s.(taskQueue) s.(workerScripts) s.(posted) l s.(alive) s.(exiting) s.(settled) s.(completedTasks) s.(failedTasks) s.(nextWorker) s.(nextTask) s.(initPending).
Definition set_alive s l := mkPool s.(workers) s.(idleWorkers) s.(taskQueue) s.(workerScripts) s.(posted) s.(timers) l s.(exiting) s.(settled) s.(completedTasks) s.(failedTasks) s.(nextWorker) s.(nextTask) s.(initPending).
Definition set_exiting s l := mkPool s.(workers) s.(idleWorkers) s.(taskQueue) s.(workerScripts) s.(posted) s.(timers) s.(alive) l s.(settled) s.(completedTasks) s.(failedTasks) s.(nextWorker) s.(nextTask) s.(initPending).
Definition set_settled s l := mkPool s.(workers) s.(idleWorkers) s.(taskQueue) s.(workerScripts) s.(posted) s.(timers) s.(alive) s.(exiting) l s.(completedTasks) s.(failedTasks) s.(nextWorker) s.(nextTask) s.(initPending).
Definition set_completed s n := mkPool s.(workers) s.(idleWorkers) s.(taskQueue) s.(workerScripts) s.(posted) s.(timers) s.(alive) s.(exiting) s.(settled) n s.(failedTasks) s.(nextWorker) s.(nextTask) s.(initPending).
Definition set_failed s n := mkPool s.(workers) s.(idleWorkers) s.(taskQueue) s.(workerScripts) s.(posted) s.(timers) s.(alive) s.(exiting) s.(settled) s.(completedTasks) n s.(nextWorker) s.(nextTask) s.(initPending).
Definition set_nextWorker s n := mkPool s.(workers) s.(idleWorkers) s.(taskQueue) s.(workerScripts) s.(posted) s.(timers) s.(alive) s.(exiting) s.(settled) s.(completedTasks) s.(failedTasks) n s.(nextTask) s.(initPending).
Definition set_nextTask s n := mkPool s.(workers) s.(idleWorkers) s.(taskQueue) s.(workerScripts) s.(posted) s.(timers) s.(alive) s.(exiting) s.(settled) s.(completedTasks) s.(failedTasks) s.(nextWorker) n s.(initPending).
Definition set_initPending s n := mkPool s.(workers) s.(idleWorkers) s.(taskQueue) s.(workerScripts) s.(posted) s.(timers) s.(alive) s.(exiting) s.(settled) s.(completedTasks) s.(failedTasks) s.(nextWorker) s.(nextTask) n.

(** [arr.indexOf(x)] followed by [arr.splice(i, 1)] when found. *)
Fixpoint remove_first {A} (eqb : A -> A -> bool) (x : A) (l : list A) : list A :=
  match l with
  | [] => []
  | y :: t => if eqb x y then t else y :: remove_first eqb x t
  end.

(** [l] is [l'] with some elements left out, the others in order. *)
Inductive sublist {A} : list A -> list A -> Prop :=
| sublist_nil : sublist [] []
| sublist_skip x l l' : sublist l l' -> sublist l (x :: l')
| sublist_keep x l l' : sublist l l' -> sublist (x :: l) (x :: l').

(** [arr.pop()]: the last element and the rest. *)
Definition pop {A} (l : list A) : option (A * list A) :=
  match rev l with
  | [] => None
  | x :: r => Some (x, rev r)
  end.

Fixpoint lookup_script (ty : string) (m : list (string * string)) : option string :=
  match m with
  | [] => None
  | (k, v) :: t => if String.eqb k ty then Some v else lookup_script ty t
  end.

(** [Map.set] on the script registry. *)
Fixpoint map_set_script (ty p : string) (m : list (string * string)) : list (string * string) :=
  match m with
  | [] => [(ty, p)]
  | (k, v) :: t => if String.eqb k ty then (k, p) :: t else (k, v) :: map_set_script ty p t
  end.

Section Pool.

(** The raw option values; [options.minWorkers || 2] and
    [options.maxWorkers || 4] turn 0 into the default. *)
Variables minOpt maxOpt : nat.

Definition opt_or (n d : nat) : nat := if Nat.eqb n 0 then d else n.
Definition minWorkers := opt_or minOpt 2.
Definition maxWorkers := opt_or maxOpt 4.

(** [createWorker]: the body runs synchronously up to its end (no [await]);
    the new worker is pushed to [idleWorkers] only. *)
Definition createWorker (s : Pool) : Worker * Pool :=
  let w := s.(nextWorker) in
  (w, set_idle (set_alive (set_nextWorker s (S w)) (s.(alive) ++ [w]))
               (s.(idleWorkers) ++ [w])).

Definition removeWorker (w : Worker) (s : Pool) : Pool :=
  let s1 := set_workers s (remove_first Nat.eqb w s.(workers)) in
  set_idle s1 (remove_first Nat.eqb w s1.(idleWorkers)).

Definition handleWorkerError (w : Worker) (s : Pool) : Pool :=
  snd (createWorker (removeWorker w s)).

Definition handleWorkerExit (w : Worker) (s : Pool) : Pool :=
  let s1 := removeWorker w s in
  if length s1.(workers) <? minWorkers then snd (createWorker s1) else s1.

(** [worker.terminate()]: the thread stops (its pending replies are lost)
    and its ['exit'] event is delivered later. *)
Definition terminate (w : Worker) (s : Pool) : Pool :=
  let s1 := set_alive s (remove_first Nat.eqb w s.(alive)) in
  let s2 := set_posted s1 (filter (fun p => negb (Nat.eqb (fst p) w)) s1.(posted)) in
  set_exiting s2 (s2.(exiting) ++ [w]).

Definition processNextTask (s : Pool) : Pool :=
  match s.(taskQueue) with
  | [] => s
  | task :: _ =>
    match pop s.(idleWorkers) with
    | None => s
    | Some (worker, rest) =>
      let s1 := set_idle s rest in
      match lookup_script task.(task_type) s1.(workerScripts) with
      | None | Some ""%string =>
        (* task.reject(...); return -- the task stays in the queue *)
        set_settled s1 (s1.(settled) ++ [task.(task_id)])
      | Some _ =>
        let s2 := set_posted s1 (s1.(posted) ++ [(worker, task.(task_id))]) in
        set_timers s2 (s2.(timers) ++ [(task.(task_id), worker)])
      end
    end
  end.

(** The guard of [executeTask]. *)
Definition createGuard (s : Pool) : bool :=
  Nat.eqb (length s.(idleWorkers)) 0 && (length s.(workers) <? maxWorkers).

Definition executeTask (ty : string) (s : Pool) : Pool :=
  let task := mkTask s.(nextTask) ty in
  let s1 := set_queue (set_nextTask s (S s.(nextTask))) (s.(taskQueue) ++ [task]) in
  let s2 := if createGuard s1 then snd (createWorker s1) else s1 in
  processNextTask s2.

(** The ['message'] handler installed by [createWorker] for worker [w]. *)
Definition onMessage (w : Worker) (tid : nat) (err : bool) (s : Pool) : Pool :=
  match find (fun t => Nat.eqb t.(task_id) tid) s.(taskQueue) with
  | None => s
  | Some _ =>
    let s1 := if err then set_failed s (S s.(failedTasks))
              else set_completed s (S s.(completedTasks)) in
    let s2 := set_settled s1 (s1.(settled) ++ [tid]) in
    let s3 := set_queue s2 (filter (fun t => negb (Nat.eqb t.(task_id) tid)) s2.(taskQueue)) in
    let s4 := set_idle s3 (s3.(idleWorkers) ++ [w]) in
    processNextTask s4
  end.

Definition task_eqb (t u : WorkerTask) : bool := Nat.eqb t.(task_id) u.(task_id).

(** The [setTimeout] callback of [processNextTask]. *)
Definition onTimeout (tid : nat) (w : Worker) (s : Pool) : Pool :=
  match find (fun t => Nat.eqb t.(task_id) tid) s.(taskQueue) with
  | None => s
  | Some t =>
    let s1 := set_queue s (remove_first task_eqb t s.(taskQueue)) in
    let s2 := set_failed s1 (S s1.(failedTasks)) in
    let s3 := set_settled s2 (s2.(settled) ++ [tid]) in
    handleWorkerError w s3
  end.

(** The loop condition of [cleanupIdleWorkers]. *)
Definition cleanupCond (s : Pool) : bool :=
  (minWorkers <? length s.(workers)) && (0 <? length s.(idleWorkers)).

Fixpoint cleanup_loop (fuel : nat) (s : Pool) : Pool :=
  match fuel with
  | 0 => s
  | S f =>
    if cleanupCond s then
      match pop s.(idleWorkers) with
      | None => s
      | Some (w, rest) => cleanup_loop f (removeWorker w (terminate w (set_idle s rest)))
      end
    else s
  end.

(** Every iteration pops one idle worker, so [length idleWorkers] bounds it. *)
Definition cleanupIdleWorkers (s : Pool) : Pool :=
  cleanup_loop (length s.(idleWorkers)) s.

(** [shutdown] after its wait loop has seen an empty queue. *)
Definition shutdown (s : Pool) : Pool :=
  let s1 := fold_left (fun acc w => terminate w acc) s.(workers) s in
  set_idle (set_workers s1 []) [].

(** [getMetrics().activeWorkers]. *)
Definition activeWorkers (s : Pool) : Z :=
  Z.of_nat (length s.(workers)) - Z.of_nat (length s.(idleWorkers)).

Inductive Event :=
| InitCreate                       (* one iteration of [initialize]'s loop *)
| Register (ty path : string)      (* registerWorkerScript *)
| Submit (ty : string)             (* executeTask *)
| Reply (w : Worker) (tid : nat) (err : bool) (* a worker answers a posted message *)
| Timeout (tid : nat) (w : Worker) (* a task timer fires *)
| Fault (w : Worker)               (* a worker thread raises ['error'] and dies *)
| Exit (w : Worker)                (* a pending ['exit'] event is delivered *)
| Cleanup                          (* the [setInterval] of [initialize] fires *)
| Shutdown.                        (* [shutdown()] passes its wait loop *)

Definition pair_eqb (p q : nat * nat) : bool := Nat.eqb (fst p) (fst q) && Nat.eqb (snd p) (snd q).

Definition run_event (e : Event) (s : Pool) : option Pool :=
  match e with
  | InitCreate =>
    match s.(initPending) with
    | 0 => None
    | S k => Some (set_initPending (snd (createWorker s)) k)
    end
  | Register ty p => Some (set_scripts s (map_set_script ty p s.(workerScripts)))
  | Submit ty => Some (executeTask ty s)
  | Reply w tid err =>
    if existsb (pair_eqb (w, tid)) s.(posted)
    then Some (onMessage w tid err (set_posted s (remove_first pair_eqb (w, tid) s.(posted))))
    else None
  | Timeout tid w =>
    if existsb (pair_eqb (tid, w)) s.(timers)
    then Some (onTimeout tid w (set_timers s (remove_first pair_eqb (tid, w) s.(timers))))
    else None
  | Fault w =>
    if existsb (Nat.eqb w) s.(alive)
    then Some (handleWorkerError w (terminate w s))
    else None
  | Exit w =>
    if existsb (Nat.eqb w) s.(exiting)
    then Some (handleWorkerExit w (set_exiting s (remove_first Nat.eqb w s.(exiting))))
    else None
  | Cleanup => match s.(initPending) with 0 => Some (cleanupIdleWorkers s) | _ => None end
  | Shutdown => match s.(taskQueue) with [] => Some (shutdown s) | _ => None end
  end.

Fixpoint run_events (es : list Event) (s : Pool) : option Pool :=
  match es with
  | [] => Some s
  | e :: es' => match run_event e s with Some s' => run_events es' s' | None => None end
  end.

(** The pool right after [new WorkerPool(options)], before the first
    iteration of [initialize]. *)
Definition initPool : Pool :=
  mkPool [] [] [] [] [] [] [] [] [] 0 0 0 0 minWorkers.

Definition reachable (s : Pool) : Prop := exists es, run_events es initPool = Some s.

(** Workers with an unanswered posted message: dispatched a task and not
    returned to the idle set. *)
Definition busyWorkers (s : Pool) : list Worker := nodup Nat.eq_dec (map fst s.(posted)).

(** How many workers task [tid] is currently dispatched to. *)
Definition dispatch_count (tid : nat) (s : Pool) : nat :=
  length (filter (fun p => Nat.eqb (snd p) tid) s.(posted)).

End Pool.

(** How many [executeTask] calls a run of events makes. *)
Definition is_submit (e : Event) : bool := match e with Submit _ => true | _ => false end.
Definition submits (es : list Event) : nat := length (filter is_submit es).

(** The workers handed a task, one per unanswered message. *)
Definition held (s : Pool) : list Worker := idleWorkers s ++ map fst (posted s).

(** The worker bookkeeping: no worker is both idle and waiting for an
    answer, none waits for two answers or is idle twice; idle and busy
    workers are running threads, and thread ids are below the counter. *)
Definition Inv (s : Pool) : Prop :=
  workers s = [] /\ NoDup (held s) /\ incl (held s) (alive s) /\ NoDup (alive s) /\
  (forall w, In w (alive s) -> w < nextWorker s).

(** The task bookkeeping: queue, counters and the id counter. *)
Definition acc_fields (s : Pool) := (taskQueue s, completedTasks s, failedTasks s, nextTask s).

(** Every task id handed out is still queued or counted once, and the
    queued ids are distinct and below the counter. *)
Definition Acc (s : Pool) : Prop :=
  completedTasks s + failedTasks s + length (taskQueue s) = nextTask s /\
  NoDup (map task_id (taskQueue s)) /\ (forall t, In t (taskQueue s) -> task_id t < nextTask s).

(** One registered task type and two submissions in a row. *)
Definition two_submissions : list Event :=
  [InitCreate; Register "t" "t.js"; Submit "t"; Submit "t"].

End WorkerPool.
(** ------------------------------------------------------------------ *)
(** * Batch processor of src/src/lib/youtube/batchProcessor.ts *)

Module YtBatch.

(** [options.x ?? d]: only an absent option takes the default. *)
Definition nullish (o : option nat) (d : nat) : nat :=
  match o with Some n => n | None => d end.

Record Config := mkConfig {
  batchSize : nat; maxRetries : nat; retryDelay : nat; maxConcurrent : nat }.

Definition newConfig (bs mr rd mc : option nat) : Config :=
  mkConfig (nullish bs 10) (nullish mr 3) (nullish rd 1000) (nullish mc 5).

(** [ProcessingMetrics] without the timestamps. *)
Record Metrics := mkMetrics {
  totalItems : nat; processedItems : nat; failedItems : nat; retries : nat }.

(** The outcome of one [processWithRetry] call: whether it resolved, how many
    times it bumped [retries], and the [setTimeout] delays it waited. *)
Record ItemRun := mkRun { run_ok : bool; run_retries : nat; run_delays : list nat }.

(** [processWithRetry]; [attempt_ok n] says whether [processor(item)]
    resolves on the attempt with [retryCount = n]. The fuel is
    [S (maxRetries - retryCount)], enough for the recursion to stop
    by its own test. *)
Fixpoint pwr_fuel (fuel : nat) (attempt_ok : nat -> bool) (maxRetries retryDelay : nat)
    (retryCount : nat) : ItemRun :=
  match fuel with
  | 0 => mkRun false 0 []
  | S f =>
    if attempt_ok retryCount then mkRun true 0 []
    else if retryCount <? maxRetries then
      let r := pwr_fuel f attempt_ok maxRetries retryDelay (S retryCount) in
      mkRun r.(run_ok) (S r.(run_retries)) (retryDelay :: r.(run_delays))
    else mkRun false 0 []
  end.

Definition processWithRetry (cfg : Config) (attempt_ok : nat -> bool) (retryCount : nat) : ItemRun :=
  pwr_fuel (S (cfg.(maxRetries) - retryCount)) attempt_ok cfg.(maxRetries) cfg.(retryDelay) retryCount.

Definition count_item (r : ItemRun) (m : Metrics) : Metrics :=
  mkMetrics m.(totalItems)
    (if r.(run_ok) then S m.(processedItems) else m.(processedItems))
    (if r.(run_ok) then m.(failedItems) else S m.(failedItems))
    (m.(retries) + r.(run_retries)).

(** [for (i = 0; i < l.length; i += step) out.push(l.slice(i, i + step))];
    with [step = 0] and a non-empty [l] the loop never ends ([None]). *)
Fixpoint slices_fuel {A} (fuel step : nat) (l : list A) : list (list A) :=
  match fuel, l with
  | 0, _ | _, [] => []
  | S f, _ => firstn step l :: slices_fuel f step (skipn step l)
  end.

Definition slices {A} (step : nat) (l : list A) : option (list (list A)) :=
  match l, step with
  | [], _ => Some []
  | _, 0 => None
  | _, _ => Some (slices_fuel (length l) step l)
  end.

(** How the promise returned by [process] settles. *)
Inductive Outcome := Resolved | Rejected.

Section Run.
Variable T : Type.
(** The per-item function: [perItemFn item] resolves on attempt [n] iff
    [perItemFn item n = true]. *)
Variable perItemFn : T -> nat -> bool.
Variable cfg : Config.

Definition item_run (x : T) : ItemRun := processWithRetry cfg (perItemFn x) 0.

(** One iteration of the outer loop: [Promise.all] over the batches of the
    group, each a [Promise.all] over its items. Every started item runs to its
    end, also after a sibling has rejected; the group rejects when one item
    rejected. *)
Definition group_items (g : list (list T)) : list T := concat g.

(** How many of the items [l] resolve, and how many reject. *)
Definition n_ok (l : list T) : nat :=
  length (filter (fun x => run_ok (item_run x)) l).
Definition n_failed (l : list T) : nat :=
  length (filter (fun x => negb (run_ok (item_run x))) l).

Definition group_ok (g : list (list T)) : bool := forallb (fun x => run_ok (item_run x)) (group_items g).

Definition run_group (g : list (list T)) (m : Metrics) : Metrics :=
  fold_left (fun acc x => count_item (item_run x) acc) (group_items g) m.

(** The [for] loop of [process]: a rejected [await Promise.all] leaves the
    loop, the later groups are never started. *)
Fixpoint run_groups (gs : list (list (list T))) (m : Metrics) : Outcome * Metrics :=
  match gs with
  | [] => (Resolved, m)
  | g :: gs' =>
    let m' := run_group g m in
    if group_ok g then run_groups gs' m' else (Rejected, m')
  end.

(** [process(items, perItemFn, batchId)]: the outcome of its promise and the
    run's metrics once every started item has settled; [None] when a loop
    never ends. *)
Definition process (items : list T) : option (Outcome * Metrics) :=
  let m0 := mkMetrics (length items) 0 0 0 in
  match slices cfg.(batchSize) items with
  | None => None
  | Some batches =>
    match slices cfg.(maxConcurrent) batches with
    | None => None
    | Some groups => Some (run_groups groups m0)
    end
  end.

End Run.

End YtBatch.

(** ------------------------------------------------------------------ *)
(** * Chunk retry of the vector batch processor (src/unnamed/part_001) *)

Module ChunkBatch.

(** [options.x || d]. *)
Definition or_default (n d : nat) : nat := if Nat.eqb n 0 then d else n.

(** [processChunkWithRetry]: [add_ok n] says whether
    [vectorStorage.addDocument] resolves on the attempt with [retryCount = n];
    the result is the returned boolean and the delays waited. *)
Fixpoint pcr_fuel (fuel : nat) (add_ok : nat -> bool) (maxRetriesOpt retryDelayOpt : nat)
    (retryCount : nat) : bool * list nat :=
  match fuel with
  | 0 => (false, [])
  | S f =>
    if add_ok retryCount then (true, [])
    else if retryCount <? or_default maxRetriesOpt 3 then
      let d := or_default retryDelayOpt 1000 * 2 ^ retryCount in
      let r := pcr_fuel f add_ok maxRetriesOpt retryDelayOpt (S retryCount) in
      (fst r, d :: snd r)
    else (false, [])
  end.

Definition processChunkWithRetry (add_ok : nat -> bool) (maxRetriesOpt retryDelayOpt : nat) : bool * list nat :=
  pcr_fuel (S (or_default maxRetriesOpt 3)) add_ok maxRetriesOpt retryDelayOpt 0.

(** [ProcessingMetrics] without the timings. *)
Record CMetrics := mkCMetrics {
  totalChunks : nat; processedChunks : nat; failedChunks : nat; retryCount : nat }.

(** The options the constructor stores ([options.x || d]); the splitter
    sizes and [concurrentBatches] do not reach the counters. *)
Record Options := mkOptions { batchSize : nat; maxRetries : nat; retryDelay : nat }.

Definition newOptions (bs mr rd : nat) : Options :=
  mkOptions (or_default bs 10) (or_default mr 3) (or_default rd 1000).

(** The splitting loop of [processBatch]; [splits] are the [splitText]
    results of the documents. [chunkIndex: allChunks.length] is evaluated
    inside [chunks.map], before the [push]. *)
Fixpoint gather (allChunks : list (string * nat)) (splits : list (list string)) : list (string * nat) :=
  match splits with
  | [] => allChunks
  | chunks :: t => gather (allChunks ++ map (fun c => (c, length allChunks)) chunks) t
  end.

(** One callback of [processLargeDocument]: the counters after
    [chunkProcessor(chunk, globalIndex)] settles, and whether the callback
    throws ['Too many failed chunks']. *)
Definition large_chunk (proc_ok : string -> nat -> bool) (mr : nat) (c : string) (gi : nat)
    (m : CMetrics) : bool * CMetrics :=
  if proc_ok c gi
  then (false, mkCMetrics m.(totalChunks) (S m.(processedChunks)) m.(failedChunks) m.(retryCount))
  else let m' := mkCMetrics m.(totalChunks) m.(processedChunks) (S m.(failedChunks)) (S m.(retryCount)) in
       (mr <? m'.(retryCount), m').

(** [Promise.all] over one batch: every callback is started, the batch
    rejects when one of them threw. The k-th failure seen raises [retryCount]
    to its k-th value whatever the completion order, so the order is the
    array order. The result lists the indices passed to [chunkProcessor]. *)
Fixpoint run_batch (proc_ok : string -> nat -> bool) (bs mr batchIndex chunkIndex : nat)
    (batch : list string) (m : CMetrics) : bool * CMetrics * list nat :=
  match batch with
  | [] => (false, m, [])
  | c :: t =>
    let gi := batchIndex * bs + chunkIndex in
    let '(thr, m1) := large_chunk proc_ok mr c gi m in
    let '(thr', m2, idx) := run_batch proc_ok bs mr batchIndex (S chunkIndex) t m1 in
    (thr || thr', m2, gi :: idx)
  end.

(** The [for ... of batches.entries()] loop: a rejected batch ends it. *)
Fixpoint run_batches (proc_ok : string -> nat -> bool) (bs mr batchIndex : nat)
    (batches : list (list string)) (m : CMetrics) : YtBatch.Outcome * CMetrics * list nat :=
  match batches with
  | [] => (YtBatch.Resolved, m, [])
  | b :: t =>
    let '(thr, m1, idx) := run_batch proc_ok bs mr batchIndex 0 b m in
    if thr then (YtBatch.Rejected, m1, idx)
    else let '(o, m2, idx') := run_batches proc_ok bs mr (S batchIndex) t m1 in (o, m2, idx ++ idx')
  end.

(** [processLargeDocument(text, metadata, chunkProcessor)] once [splitText]
    returned [chunks]; [proc_ok c i] says whether [chunkProcessor(c, i)]
    resolves. The metrics [m] are the instance's, not reset by the call. *)
Definition processLargeDocument (proc_ok : string -> nat -> bool) (o : Options)
    (chunks : list string) (m : CMetrics) : option (YtBatch.Outcome * CMetrics * list nat) :=
  let bs := or_default o.(batchSize) 10 in
  let m1 := mkCMetrics (length chunks) m.(processedChunks) m.(failedChunks) m.(retryCount) in
  match YtBatch.slices bs chunks with
  | None => None
  | Some batches => Some (run_batches proc_ok bs (or_default o.(maxRetries) 3) 0 batches m1)
  end.

(** How many of the calls [(chunk, index)] of [l] reject. *)
Definition failures (proc_ok : string -> nat -> bool) (l : list (string * nat)) : nat :=
  length (filter (fun p => negb (proc_ok (fst p) (snd p))) l).

(** The chunk callback of [YouTubeProcessor.processVideoBatch]
    (src/src/utils/workerPool.ts): [videos[index]], when it exists, is handed
    to [processVideo]. *)
Definition videoBatch_target {A} (videos : list A) (index : nat) : option A := nth_error videos index.

(** The videos handed to [processVideo], for the indices the callbacks got. *)
Definition videoBatch_processed {A} (videos : list A) (idx : list nat) : list A :=
  flat_map (fun i => match videoBatch_target videos i with Some v => [v] | None => [] end) idx.

End ChunkBatch.

(** ------------------------------------------------------------------ *)
(** * The generic cache of src/unnamed/part_005 *)

Module SimpleCache.

Section Cache.
Variable V : Type.

Record CacheEntry := mkEntry { value : V; timestamp : Z }.

(** [Map<string, CacheEntry>] as an association list in insertion order. *)
Record Cache := mkCache {
  cache : list (string * CacheEntry);
  enabled : bool;
  maxSize : Z;
  ttl : Z
}.

Definition with_store (c : Cache) (l : list (string * CacheEntry)) : Cache :=
  mkCache l c.(enabled) c.(maxSize) c.(ttl).

Fixpoint map_get (k : string) (l : list (string * CacheEntry)) : option CacheEntry :=
  match l with
  | [] => None
  | (k', e) :: t => if String.eqb k' k then Some e else map_get k t
  end.

(** [Map.set]: an existing key keeps its position. *)
Fixpoint map_set (k : string) (e : CacheEntry) (l : list (string * CacheEntry)) :=
  match l with
  | [] => [(k, e)]
  | (k', e') :: t => if String.eqb k' k then (k', e) :: t else (k', e') :: map_set k e t
  end.

Fixpoint map_delete (k : string) (l : list (string * CacheEntry)) :=
  match l with
  | [] => []
  | (k', e') :: t => if String.eqb k' k then t else (k', e') :: map_delete k t
  end.

(** [new Cache(options)]. *)
Definition newCache (en : option bool) (ms tt : option Z) : Cache :=
  mkCache [] (match en with Some b => b | None => true end)
    (match ms with Some n => n | None => 1000%Z end)
    (match tt with Some n => n | None => (24 * 60 * 60 * 1000)%Z end).

(** [get(key)] at time [now] ([Date.now()]). *)
Definition get (now : Z) (key : string) (c : Cache) : option V * Cache :=
  if negb c.(enabled) then (None, c) else
  match map_get key c.(cache) with
  | None => (None, c)
  | Some entry =>
    if (c.(ttl) <? now - entry.(timestamp))%Z
    then (None, with_store c (map_delete key c.(cache)))
    else (Some entry.(value), c)
  end.

(** The eviction loop of [set]: while [size >= maxSize] delete the first key
    of [keys()]. On an empty map [keys().next().value] is [undefined], the
    delete does nothing and the loop never ends ([None]). *)
Fixpoint evict (maxSize : Z) (l : list (string * CacheEntry)) : option (list (string * CacheEntry)) :=
  if (maxSize <=? Z.of_nat (length l))%Z then
    match l with
    | [] => None
    | _ :: t => evict maxSize t
    end
  else Some l.

(** [set(key, value)] at time [now]; [None] when it never returns. *)
Definition set (now : Z) (key : string) (v : V) (c : Cache) : option Cache :=
  if negb c.(enabled) then Some c else
  match evict c.(maxSize) c.(cache) with
  | None => None
  | Some l => Some (with_store c (map_set key (mkEntry v now) l))
  end.

(** [delete(key)] and [clear()]. *)
Definition delete (key : string) (c : Cache) : Cache := with_store c (map_delete key c.(cache)).
Definition clear (c : Cache) : Cache := with_store c [].

(** The [for ... of this.cache.entries()] loop of [cleanup()] at time [now].
    The body deletes only the entry being visited, so iterating the entries
    as they were at the start visits the same entries. *)
Fixpoint cleanup_loop (now ttl : Z) (it l : list (string * CacheEntry)) : list (string * CacheEntry) :=
  match it with
  | [] => l
  | (key, entry) :: t =>
    cleanup_loop now ttl t (if (ttl <? now - entry.(timestamp))%Z then map_delete key l else l)
  end.

Definition cleanup (now : Z) (c : Cache) : Cache :=
  with_store c (cleanup_loop now c.(ttl) c.(cache) c.(cache)).

(** The public operations and the hourly [cleanup] call. *)
Inductive Op :=
| OpGet (now : Z) (key : string)
| OpSet (now : Z) (key : string) (v : V)
| OpDelete (key : string)
| OpClear
| OpCleanup (now : Z).

Definition run_op (o : Op) (c : Cache) : option Cache :=
  match o with
  | OpGet now key => Some (snd (get now key c))
  | OpSet now key v => set now key v c
  | OpDelete key => Some (delete key c)
  | OpClear => Some (clear c)
  | OpCleanup now => Some (cleanup now c)
  end.

Fixpoint run_ops (os : list Op) (c : Cache) : option Cache :=
  match os with
  | [] => Some c
  | o :: t => match run_op o c with Some c' => run_ops t c' | None => None end
  end.

(** Whether [cleanup] at time [now] deletes the entry [q]. *)
Definition expired (now tt : Z) (q : string * CacheEntry) : bool := (tt <? now - timestamp (snd q))%Z.

(** The invariant of the reachable caches. *)
Definition CInv (c : Cache) : Prop :=
  NoDup (map fst (cache c)) /\ (Z.of_nat (length (cache c)) <= Z.max 0 (maxSize c))%Z /\
  (enabled c = false -> cache c = []).

End Cache.

End SimpleCache.

(** ------------------------------------------------------------------ *)
(** * CacheManager of src/src/utils/smartCorrection.ts over node-cache *)

Module CacheMgr.
Local Open Scope string_scope.

#[local] Set Warnings "-register-all".
(** The JavaScript values that can occur in [filters]; a number or a BigInt
    carries its decimal text. *)
Inductive jsval :=
| JUndefined
| JNull
| JBool (b : bool)
| JNum (digits : string)
| JBigInt (digits : string)
| JStr (s : string)
| JArr (l : list jsval)
| JObj (fields : list (string * jsval)).

(** The double-quote character, ASCII code 34. *)
Definition dquote : string := String (Ascii.ascii_of_nat 34) EmptyString.
Definition quote (s : string) : string := dquote ++ s ++ dquote.

Fixpoint join (sep : string) (l : list string) : string :=
  match l with
  | [] => ""
  | [x] => x
  | x :: t => x ++ sep ++ join sep t
  end.

(** [JSON.stringify]: [None] stands for the [TypeError] it throws on a
    BigInt; [undefined] is dropped from objects and printed as [null] in
    arrays; [Some None] at top level is [JSON.stringify(undefined)].
    Escaping inside strings is not modelled. *)
Fixpoint stringify (v : jsval) : option (option string) :=
  match v with
  | JUndefined => Some None
  | JNull => Some (Some "null")
  | JBool b => Some (Some (if b then "true" else "false"))
  | JNum d => Some (Some d)
  | JBigInt _ => None
  | JStr s => Some (Some (quote s))
  | JArr l =>
    let fix go (l : list jsval) : option (list string) :=
      match l with
      | [] => Some []
      | x :: t =>
        match stringify x, go t with
        | Some o, Some r => Some (match o with Some s => s | None => "null" end :: r)
        | _, _ => None
        end
      end in
    match go l with Some r => Some (Some ("[" ++ join "," r ++ "]")) | None => None end
  | JObj fs =>
    let fix go (fs : list (string * jsval)) : option (list string) :=
      match fs with
      | [] => Some []
      | (k, x) :: t =>
        match stringify x, go t with
        | Some (Some s), Some r => Some ((quote k ++ ":" ++ s) :: r)
        | Some None, Some r => Some r
        | _, _ => None
        end
      end in
    match go fs with Some r => Some (Some ("{" ++ join "," r ++ "}")) | None => None end
  end.

(** A completion: a returned value or a thrown error (its message). *)
Inductive Outcome (A : Type) := Ret (a : A) | Throw (e : string).
Arguments Ret {A} a.
Arguments Throw {A} e.

(** [generateKey(query, filters)]; the sha256 digest is modelled by the JSON
    text it is taken of. *)
Definition generateKey (query : string) (filters : jsval) : Outcome string :=
  match stringify (JObj [("query", JStr query); ("filters", filters)]) with
  | Some (Some s) => Ret s
  | _ => Throw "TypeError: Do not know how to serialize a BigInt"
  end.

(** JavaScript numbers: IEEE binary64 doubles ([prec = 53], [emax = 1024])
    as [SpecFloat] computes them. *)
Definition js_num (n : nat) : SpecFloat.spec_float :=
  SpecFloat.binary_normalize 53 1024 (Z.of_nat n) 0 false.
Definition js_mul (x y : SpecFloat.spec_float) : SpecFloat.spec_float := SpecFloat.SFmul 53 1024 x y.
(** The literals [0.7] and [0.3]: the doubles nearest to 7/10 and 3/10. *)
Definition js_0_7 : SpecFloat.spec_float := SpecFloat.SFdiv 53 1024 (js_num 7) (js_num 10).
Definition js_0_3 : SpecFloat.spec_float := SpecFloat.SFdiv 53 1024 (js_num 3) (js_num 10).
(** [Math.floor] of a non-negative double. *)
Definition js_floor (x : SpecFloat.spec_float) : nat :=
  match x with
  | SpecFloat.S754_finite false m e => Z.to_nat (Z.shiftl (Zpos m) e)
  | _ => 0
  end.

(** [this.cache.options.maxKeys || 1000]. *)
Definition maxKeys_or (mk : nat) : nat := if Nat.eqb mk 0 then 1000 else mk.

(** The early return of [cleanCache]: [keys.length <= maxKeys * 0.7] in
    double arithmetic. *)
Definition at_most_70pct (mk n : nat) : bool := SpecFloat.SFleb (js_num n) (js_mul (js_num mk) js_0_7).

(** [Math.floor(n * 0.3)]. *)
Definition removeCount (n : nat) : nat := js_floor (js_mul (js_num n) js_0_3).

Section Manager.
Variable V : Type.

(** What node-cache stores: a fetched value, or the [`${key}_metadata`]
    object with its [_accessCount] (the other fields are not read). *)
Inductive CValue := CVal (v : V) | CMeta (accessCount : nat).

(** The node-cache instance (TTLs not modelled) and the manager's metrics. *)
Record State := mkState {
  store : list (string * CValue);
  maxKeys : nat;
  hits : nat;
  misses : nat;
  queries : nat
}.

Definition M (A : Type) := State -> Outcome A * State.

Definition ret {A} (a : A) : M A := fun s => (Ret a, s).
Definition bind {A B} (m : M A) (k : A -> M B) : M B :=
  fun s => match m s with
           | (Ret a, s') => k a s'
           | (Throw e, s') => (Throw e, s')
           end.
Definition throw {A} (e : string) : M A := fun s => (Throw e, s).

Notation "x <- m ;; k" := (bind m (fun x => k)) (at level 61, m at next level, right associativity).
Notation "m ;;; k" := (bind m (fun _ => k)) (at level 61, right associativity).

(** [try { m } catch { h }]: the state changes made before the throw stay. *)
Definition try_catch {A} (m : M A) (h : string -> M A) : M A :=
  fun s => match m s with
           | (Ret a, s') => (Ret a, s')
           | (Throw e, s') => h e s'
           end.

Fixpoint lookup (k : string) (l : list (string * CValue)) : option CValue :=
  match l with
  | [] => None
  | (k', v) :: t => if String.eqb k' k then Some v else lookup k t
  end.

Fixpoint update (k : string) (v : CValue) (l : list (string * CValue)) :=
  match l with
  | [] => [(k, v)]
  | (k', v') :: t => if String.eqb k' k then (k', v) :: t else (k', v') :: update k v t
  end.

Definition with_store (s : State) l := mkState l s.(maxKeys) s.(hits) s.(misses) s.(queries).

Definition nc_get (k : string) : M (option CValue) := fun s => (Ret (lookup k s.(store)), s).

(** node-cache's [set]: it throws [ECACHEFULL] as soon as [stats.keys >=
    maxKeys], before looking whether the key is already present, so also an
    overwrite of a full store throws. *)
Definition nc_set (k : string) (v : CValue) : M unit := fun s =>
  if Nat.leb s.(maxKeys) (length s.(store)) then (Throw "ECACHEFULL", s)
  else (Ret tt, with_store s (update k v s.(store))).

Definition hit : M unit := fun s => (Ret tt, mkState s.(store) s.(maxKeys) (S s.(hits)) s.(misses) s.(queries)).
Definition miss : M unit := fun s => (Ret tt, mkState s.(store) s.(maxKeys) s.(hits) (S s.(misses)) s.(queries)).
Definition updateMetrics : M unit := fun s => (Ret tt, mkState s.(store) s.(maxKeys) s.(hits) s.(misses) (S s.(queries))).

Definition lift {A} (o : Outcome A) : M A := fun s => (o, s).

(** The [try] block of [get]; [fetchFunction] is absent ([None]) or the
    completion of [await fetchFunction()]. A fetched value never sits under a
    [_metadata] key (a generated key ends in a closing brace), so the
    metadata read is a [CMeta] or absent. *)
Definition get_body (key : string) (fetchFunction : option (Outcome V)) : M (option CValue) :=
  value <- nc_get key ;;
  match value with
  | Some v =>
    metadata <- nc_get (key ++ "_metadata") ;;
    (match metadata with
     | Some (CMeta n) => nc_set (key ++ "_metadata") (CMeta (S n))
     | _ => ret tt
     end) ;;;
    hit ;;; updateMetrics ;;; ret (Some v)
  | None =>
    miss ;;;
    match fetchFunction with
    | None => updateMetrics ;;; ret None
    | Some f =>
      v <- lift f ;;
      nc_set key (CVal v) ;;;
      nc_set (key ++ "_metadata") (CMeta 1) ;;;
      updateMetrics ;;; ret (Some (CVal v))
    end
  end.

(** [get(query, filters, fetchFunction)]: the key is derived before the
    [try]. *)
Definition get (query : string) (filters : jsval) (fetchFunction : option (Outcome V)) : M (option CValue) :=
  match generateKey query filters with
  | Throw e => throw e
  | Ret key =>
    try_catch (get_body key fetchFunction) (fun _ => updateMetrics ;;; ret None)
  end.

(** [value._accessCount] of a fetched value, as the test
    [value && value._accessCount] of [cleanCache] sees it: 0 when the value
    is falsy or has no truthy numeric [_accessCount]. *)
Variable vcount : V -> nat.

Definition entry_count (c : CValue) : nat :=
  match c with CVal v => vcount v | CMeta n => n end.

(** The [accessPatterns] map of [cleanCache]: the keys, in [keys()] order,
    whose value has a truthy [_accessCount], with that count. *)
Definition accessPatterns (l : list (string * CValue)) : list (string * nat) :=
  flat_map (fun kv => match entry_count (snd kv) with
                      | 0 => []
                      | S n => [(fst kv, S n)]
                      end) l.

(** The order the comparator [(a, b) => a[1] - b[1]] sorts by. *)
Definition cnt_le (p q : string * nat) : Prop := snd p <= snd q.

(** One step of the stable [sort((a, b) => a[1] - b[1])]: [p] comes before
    the elements of [l] and is placed before the first one whose count is
    not smaller. *)
Fixpoint insert_by_count (p : string * nat) (l : list (string * nat)) : list (string * nat) :=
  match l with
  | [] => [p]
  | q :: t => if Nat.ltb (snd q) (snd p) then q :: insert_by_count p t else p :: q :: t
  end.

Fixpoint sort_by_count (l : list (string * nat)) : list (string * nat) :=
  match l with
  | [] => []
  | p :: t => insert_by_count p (sort_by_count t)
  end.

(** [cleanCache()]: the keys it deletes, for [this.cache.options.maxKeys]
    = [maxKeysOpt] and the store [l]. *)
Definition cleanCache_keys (maxKeysOpt : nat) (l : list (string * CValue)) : list string :=
  if at_most_70pct (maxKeys_or maxKeysOpt) (length l) then [] else
  let sortedKeys := map fst (sort_by_count (accessPatterns l)) in
  firstn (removeCount (length sortedKeys)) sortedKeys.

Definition cleanCache (maxKeysOpt : nat) (l : list (string * CValue)) : list (string * CValue) :=
  let del := cleanCache_keys maxKeysOpt l in
  filter (fun kv => negb (existsb (String.eqb (fst kv)) del)) l.

End Manager.

(** A full store of [maxKeys = 10] keys: five fetched values and their
    metadata entries, accessed 1 to 5 times. *)
Definition full_store : list (string * CValue nat) :=
  [("k1", CVal nat 10); ("k1_metadata", CMeta nat 1);
   ("k2", CVal nat 20); ("k2_metadata", CMeta nat 2);
   ("k3", CVal nat 30); ("k3_metadata", CMeta nat 3);
   ("k4", CVal nat 40); ("k4_metadata", CMeta nat 4);
   ("k5", CVal nat 50); ("k5_metadata", CMeta nat 5)].

End CacheMgr.

(** ------------------------------------------------------------------ *)
(** * Worker pool: invariants of the reachable states *)

(** Proof automation shared by the developments below. *)
Ltac count_tac :=
  simpl; split; [reflexivity|]; split; [reflexivity|];
  split; [intros _; split; reflexivity | intros ? ?; discriminate].

Ltac nodup_tac :=
  vm_compute; repeat constructor; simpl; intros Hk;
  repeat (destruct Hk as [Hk|Hk]; [discriminate|]); exact Hk.

Module WorkerPoolFacts.
Import WorkerPool.

Section Facts.
Variables minOpt maxOpt : nat.

Lemma remove_first_nil {A} (eqb : A -> A -> bool) x : remove_first eqb x [] = [].
Proof. reflexivity. Qed.

Lemma createWorker_workers s : workers (snd (createWorker s)) = workers s.
Proof. reflexivity. Qed.

Lemma removeWorker_workers w s : workers s = [] -> workers (removeWorker w s) = [].
Proof. intros H. unfold removeWorker. simpl. now rewrite H. Qed.

Lemma terminate_workers w s : workers (terminate w s) = workers s.
Proof. reflexivity. Qed.

Lemma processNextTask_workers s : workers (processNextTask s) = workers s.
Proof.
  unfold processNextTask.
  destruct (taskQueue s) as [|t q]; [reflexivity|].
  destruct (pop (idleWorkers s)) as [[w r]|]; [|reflexivity].
  destruct (lookup_script _ _) as [p|]; [destruct p|]; reflexivity.
Qed.

Lemma handleWorkerError_workers w s : workers s = [] -> workers (handleWorkerError w s) = [].
Proof. intros H. unfold handleWorkerError. rewrite createWorker_workers. now apply removeWorker_workers. Qed.

Lemma handleWorkerExit_workers w s :
  workers s = [] -> workers (handleWorkerExit minOpt w s) = [].
Proof.
  intros H. unfold handleWorkerExit.
  destruct (_ <? _); [rewrite createWorker_workers|]; now apply removeWorker_workers.
Qed.

Lemma executeTask_workers ty s : workers (executeTask maxOpt ty s) = workers s.
Proof.
  unfold executeTask. rewrite processNextTask_workers.
  destruct (createGuard _ _); reflexivity.
Qed.

Lemma onMessage_workers w tid err s : workers (onMessage w tid err s) = workers s.
Proof.
  unfold onMessage. destruct (find _ _); [|reflexivity].
  rewrite processNextTask_workers. destruct err; reflexivity.
Qed.

Lemma onTimeout_workers tid w s : workers s = [] -> workers (onTimeout tid w s) = [].
Proof.
  intros H. unfold onTimeout. destruct (find _ _); [|exact H].
  apply handleWorkerError_workers. exact H.
Qed.

(** With no tracked worker the trimming loop never runs. *)
Lemma cleanupCond_empty s : workers s = [] -> cleanupCond minOpt s = false.
Proof. intros H. unfold cleanupCond. rewrite H. reflexivity. Qed.

Lemma cleanupIdleWorkers_empty s : workers s = [] -> cleanupIdleWorkers minOpt s = s.
Proof.
  intros H. unfold cleanupIdleWorkers.
  destruct (length (idleWorkers s)); simpl; [reflexivity|].
  now rewrite cleanupCond_empty.
Qed.

Lemma run_event_workers e s s' :
  workers s = [] -> run_event minOpt maxOpt e s = Some s' -> workers s' = [].
Proof.
  intros H He. destruct e; simpl in He.
  - destruct (initPending s); inversion He; subst; exact H.
  - inversion He; subst; exact H.
  - inversion He; subst. now rewrite executeTask_workers.
  - destruct (existsb _ _); inversion He; subst. now rewrite onMessage_workers.
  - destruct (existsb _ _); inversion He; subst. now apply onTimeout_workers.
  - destruct (existsb _ _); inversion He; subst.
    apply handleWorkerError_workers. now rewrite terminate_workers.
  - destruct (existsb _ _); inversion He; subst. now apply handleWorkerExit_workers.
  - destruct (initPending s); inversion He; subst. now rewrite cleanupIdleWorkers_empty.
  - destruct (taskQueue s); inversion He; subst. reflexivity.
Qed.

Lemma run_events_workers es s s' :
  workers s = [] -> run_events minOpt maxOpt es s = Some s' -> workers s' = [].
Proof.
  revert s. induction es as [|e es IH]; intros s H Hr; simpl in Hr.
  - inversion Hr; subst; exact H.
  - destruct (run_event minOpt maxOpt e s) as [s1|] eqn:E; [|discriminate].
    apply (IH s1); [eapply run_event_workers; eauto | exact Hr].
Qed.

Lemma maxWorkers_pos : 0 < maxWorkers maxOpt.
Proof. unfold maxWorkers, opt_or. destruct (Nat.eqb maxOpt 0) eqn:E; [lia|]. apply Nat.eqb_neq in E. lia. Qed.

End Facts.

(** C10: [createWorker] never appends to [workers], so in every reachable
    state [workers] is empty, the size test of [executeTask] reduces to
    "no idle worker", the trimming loop of [cleanupIdleWorkers] never runs,
    and [getMetrics().activeWorkers] is [0 - idleWorkers.length]. *)
Theorem workers_list_always_empty (minOpt maxOpt : nat) (es : list Event) (s : Pool)
    (H : run_events minOpt maxOpt es (initPool minOpt) = Some s) :
  workers s = [] /\
  createGuard maxOpt s = Nat.eqb (length (idleWorkers s)) 0 /\
  cleanupCond minOpt s = false /\
  cleanupIdleWorkers minOpt s = s /\
  activeWorkers s = (- Z.of_nat (length (idleWorkers s)))%Z /\
  (activeWorkers s <= 0)%Z.
Proof.
  assert (Hw : workers s = []) by (eapply (run_events_workers minOpt maxOpt es (initPool minOpt)); [reflexivity | exact H]).
  split; [exact Hw|].
  split.
  { unfold createGuard. rewrite Hw. simpl.
    pose proof (maxWorkers_pos maxOpt) as Hp. apply Nat.ltb_lt in Hp. rewrite Hp.
    apply andb_true_r. }
  split; [now apply cleanupCond_empty|].
  split; [now apply cleanupIdleWorkers_empty|].
  unfold activeWorkers. rewrite Hw. simpl. lia.
Qed.

Lemma workers_list_always_empty_witness :
  exists s, run_events 1 1 two_submissions (initPool 1) = Some s /\
  (workers s = [] /\
   createGuard 1 s = Nat.eqb (length (idleWorkers s)) 0 /\
   cleanupCond 1 s = false /\
   cleanupIdleWorkers 1 s = s /\
   activeWorkers s = (- Z.of_nat (length (idleWorkers s)))%Z /\
   (activeWorkers s <= 0)%Z).
Proof.
  eexists. split.
  - vm_compute. reflexivity.
  - apply (workers_list_always_empty 1 1 two_submissions). vm_compute. reflexivity.
Defined.

(** C1 (code_bug): with [minWorkers = maxWorkers = 1], two submissions leave
    two busy workers: the second [executeTask] finds no idle worker, its
    guard [workers.length < maxWorkers] is [0 < 1], and a second worker is
    created although one worker already exists. *)
Lemma busy_workers_exceed_max :
  exists s, run_events 1 1 two_submissions (initPool 1) = Some s /\
  minWorkers 1 = 1 /\ maxWorkers 1 = 1 /\
  alive s = [0; 1] /\ idleWorkers s = [] /\
  length (busyWorkers s) = 2.
Proof.
  eexists. split; [vm_compute; reflexivity|].
  vm_compute. repeat split.
Qed.

(** C2 (code_bug): [processNextTask] always dispatches [taskQueue[0]], and a
    dispatched task stays in [taskQueue] until it settles; the second
    submission therefore posts the first task (id 0) to a second worker. *)
Lemma task_dispatched_twice :
  exists s, run_events 1 1 two_submissions (initPool 1) = Some s /\
  posted s = [(0, 0); (1, 0)] /\
  dispatch_count 0 s = 2 /\ dispatch_count 1 s = 0.
Proof.
  eexists. split; [vm_compute; reflexivity|].
  vm_compute. repeat split.
Qed.

(** C9 (code_bug): [shutdown] terminates [this.workers], which is always
    empty, and only forgets [idleWorkers]: with the default options, after
    [initialize] created its two workers, [shutdown] leaves both threads
    running and terminates none of them. *)
Lemma shutdown_leaves_workers_alive :
  exists s, run_events 0 0 [InitCreate; InitCreate; Shutdown] (initPool 0) = Some s /\
  taskQueue s = [] /\ idleWorkers s = [] /\ workers s = [] /\
  alive s = [0; 1] /\ exiting s = [].
Proof.
  eexists. split; [vm_compute; reflexivity|].
  vm_compute. repeat split.
Qed.

End WorkerPoolFacts.

(** ------------------------------------------------------------------ *)
(** * Batch processor: counting and retry facts *)

Module BatchFacts.
Import YtBatch.

Lemma slices_fuel_concat {A} (step fuel : nat) (l : list A) :
  0 < step -> length l <= fuel -> concat (slices_fuel fuel step l) = l.
Proof.
  intros Hs. revert l. induction fuel as [|f IH]; intros l Hl.
  - destruct l; [reflexivity | simpl in Hl; lia].
  - destruct l as [|x t]; [reflexivity|].
    change (concat (slices_fuel (S f) step (x :: t)))
      with (firstn step (x :: t) ++ concat (slices_fuel f step (skipn step (x :: t)))).
    rewrite IH; [apply firstn_skipn|].
    rewrite length_skipn. change (length (x :: t)) with (S (length t)) in *. lia.
Qed.

Lemma slices_concat {A} (step : nat) (l : list A) ls :
  slices step l = Some ls -> concat ls = l.
Proof.
  unfold slices. destruct l as [|x t].
  - intros H; inversion H; reflexivity.
  - destruct step as [|k]; intros H; [discriminate|].
    assert (E : ls = slices_fuel (length (x :: t)) (S k) (x :: t)) by congruence.
    subst ls. apply slices_fuel_concat; lia.
Qed.

Section Counting.
Variable T : Type.
Variable perItemFn : T -> nat -> bool.
Variable cfg : Config.

#[local] Abbreviation n_ok := (YtBatch.n_ok T perItemFn cfg).
#[local] Abbreviation n_failed := (YtBatch.n_failed T perItemFn cfg).

Lemma fold_count (l : list T) (m : Metrics) :
  let m' := fold_left (fun acc x => count_item (item_run T perItemFn cfg x) acc) l m in
  totalItems m' = totalItems m /\
  processedItems m' = processedItems m + n_ok l /\
  failedItems m' = failedItems m + n_failed l.
Proof.
  revert m. induction l as [|x t IH]; intros m; simpl.
  - unfold n_ok, n_failed. simpl. lia.
  - destruct (IH (count_item (item_run T perItemFn cfg x) m)) as (H1 & H2 & H3).
    unfold n_ok, n_failed in *. simpl.
    rewrite H1, H2, H3. unfold count_item.
    destruct (run_ok (item_run T perItemFn cfg x)); simpl; lia.
Qed.

Lemma n_ok_failed (l : list T) : n_ok l + n_failed l = length l.
Proof.
  unfold n_ok, n_failed. induction l as [|x t IH]; simpl; [reflexivity|].
  destruct (run_ok _); simpl; lia.
Qed.

Lemma run_group_count g m :
  totalItems (run_group T perItemFn cfg g m) = totalItems m /\
  processedItems (run_group T perItemFn cfg g m) + failedItems (run_group T perItemFn cfg g m)
    = processedItems m + failedItems m + length (group_items T g).
Proof.
  unfold run_group. destruct (fold_count (group_items T g) m) as (H1 & H2 & H3).
  rewrite H1, H2, H3. split; [reflexivity|].
  pose proof (n_ok_failed (group_items T g)). lia.
Qed.

Lemma concat_concat {A} (gs : list (list (list A))) :
  concat (map (@concat A) gs) = concat (concat gs).
Proof.
  induction gs as [|g gs IH]; simpl; [reflexivity|].
  rewrite concat_app. f_equal. exact IH.
Qed.

Lemma run_groups_resolved gs m m' :
  run_groups T perItemFn cfg gs m = (Resolved, m') ->
  totalItems m' = totalItems m /\
  processedItems m' + failedItems m' = processedItems m + failedItems m + length (concat (concat gs)).
Proof.
  revert m. induction gs as [|g gs IH]; intros m H; simpl in H.
  - inversion H; subst. simpl. lia.
  - destruct (group_ok T perItemFn cfg g); [|discriminate].
    destruct (IH _ H) as [H1 H2].
    destruct (run_group_count g m) as [G1 G2].
    rewrite H1, G1. split; [reflexivity|].
    rewrite H2, G2. change (concat (concat (g :: gs))) with (concat (g ++ concat gs)).
    rewrite concat_app, length_app. unfold group_items. lia.
Qed.

(** [processWithRetry] with a function that rejects on every attempt rejects. *)
Lemma pwr_always_fails (f : nat -> bool) fuel mr rd rc :
  (forall n, f n = false) -> run_ok (pwr_fuel fuel f mr rd rc) = false.
Proof.
  intros Hf. revert rc. induction fuel as [|k IH]; intros rc; simpl; [reflexivity|].
  rewrite Hf. destruct (rc <? mr); simpl; [apply IH | reflexivity].
Qed.

Lemma filter_neg_pos {A} (p : A -> bool) (l : list A) :
  forallb p l = false -> 1 <= length (filter (fun x => negb (p x)) l).
Proof.
  induction l as [|x t IH]; simpl; [discriminate|].
  destruct (p x); simpl; [intro H; apply IH, H | lia].
Qed.

Lemma run_groups_rejects gs m o m' x :
  In x (concat (concat gs)) ->
  run_ok (item_run T perItemFn cfg x) = false ->
  run_groups T perItemFn cfg gs m = (o, m') ->
  o = Rejected /\ failedItems m + 1 <= failedItems m'.
Proof.
  revert m. induction gs as [|g gs IH]; intros m Hin Hx H; simpl in *; [contradiction|].
  destruct (group_ok T perItemFn cfg g) eqn:Eg.
  - rewrite concat_app in Hin. apply in_app_or in Hin. destruct Hin as [Hin|Hin].
    + unfold group_ok, group_items in Eg. rewrite forallb_forall in Eg.
      rewrite (Eg x Hin) in Hx. discriminate.
    + destruct (IH _ Hin Hx H) as [Ho Hf]. split; [exact Ho|].
      unfold run_group in Hf. destruct (fold_count (group_items T g) m) as (_ & _ & H3).
      rewrite H3 in Hf. lia.
  - inversion H; subst. split; [reflexivity|].
    unfold run_group. destruct (fold_count (group_items T g) m) as (_ & _ & H3).
    rewrite H3. unfold n_failed. unfold group_ok in Eg.
    pose proof (filter_neg_pos _ _ Eg). lia.
Qed.

Lemma forallb_false_ex {A} (p : A -> bool) (l : list A) :
  forallb p l = false -> exists y, In y l /\ p y = false.
Proof.
  induction l as [|x t IH]; simpl; [discriminate|].
  destruct (p x) eqn:E; simpl; intros H.
  - destruct (IH H) as [y [Hy Ey]]. exists y. split; [right; exact Hy | exact Ey].
  - exists x. split; [left; reflexivity | exact E].
Qed.

(** When every item resolves, the loop runs to its end. *)
Lemma run_groups_all_ok gs m :
  (forall x, In x (concat (concat gs)) -> run_ok (item_run T perItemFn cfg x) = true) ->
  fst (run_groups T perItemFn cfg gs m) = Resolved.
Proof.
  revert m. induction gs as [|g gs IH]; intros m H; simpl; [reflexivity|].
  assert (Eg : group_ok T perItemFn cfg g = true).
  { unfold group_ok, group_items. apply forallb_forall. intros x Hx. apply H.
    simpl. rewrite concat_app. apply in_or_app. left. exact Hx. }
  rewrite Eg. apply IH. intros x Hx. apply H. simpl. rewrite concat_app. apply in_or_app. right. exact Hx.
Qed.

(** A rejected item ends the loop after its group: the groups before it
    resolved, the groups after it never ran. *)
Lemma run_groups_first_fail gs m o m' :
  (exists x, In x (concat (concat gs)) /\ run_ok (item_run T perItemFn cfg x) = false) ->
  run_groups T perItemFn cfg gs m = (o, m') ->
  exists gs1 g gs2, gs = gs1 ++ g :: gs2 /\
    (forall y, In y (concat (concat gs1)) -> run_ok (item_run T perItemFn cfg y) = true) /\
    (exists y, In y (concat g) /\ run_ok (item_run T perItemFn cfg y) = false) /\
    o = Rejected /\
    m' = fold_left (fun acc y => count_item (item_run T perItemFn cfg y) acc) (concat (concat gs1) ++ concat g) m.
Proof.
  revert m. induction gs as [|g gs IH]; intros m [x [Hin Hx]] H; simpl in Hin, H; [contradiction|].
  destruct (group_ok T perItemFn cfg g) eqn:Eg.
  - rewrite concat_app in Hin. apply in_app_or in Hin as [Hin|Hin].
    + unfold group_ok, group_items in Eg. rewrite forallb_forall in Eg. rewrite (Eg x Hin) in Hx. discriminate.
    + destruct (IH _ (ex_intro _ x (conj Hin Hx)) H) as (gs1 & g' & gs2 & E & Hok & Hf & Ho & Hm).
      exists (g :: gs1), g', gs2. split; [rewrite E; reflexivity|]. split.
      * intros y Hy. simpl in Hy. rewrite concat_app in Hy. apply in_app_or in Hy as [Hy|Hy].
        -- unfold group_ok, group_items in Eg. rewrite forallb_forall in Eg. apply Eg, Hy.
        -- apply Hok, Hy.
      * split; [exact Hf|]. split; [exact Ho|]. rewrite Hm. unfold run_group, group_items.
        simpl. rewrite concat_app, <- app_assoc, !fold_left_app. reflexivity.
  - assert (Ho : o = Rejected) by congruence. assert (Hm : m' = run_group T perItemFn cfg g m) by congruence.
    exists [], g, gs. split; [reflexivity|]. split; [simpl; tauto|].
    split; [apply (forallb_false_ex (fun y => run_ok (item_run T perItemFn cfg y))); exact Eg|]. split; [exact Ho|]. rewrite Hm. reflexivity.
Qed.

End Counting.

(** [processWithRetry] resolves when one of the attempts [rc..maxRetries]
    succeeds. *)
Lemma pwr_succeeds (f : nat -> bool) mr rd : forall k rc, mr - rc = k -> rc <= mr ->
  (exists n, rc <= n <= mr /\ f n = true) -> run_ok (pwr_fuel (S k) f mr rd rc) = true.
Proof.
  induction k as [|k IH]; intros rc Hk Hr [n [Hn Hf]].
  - assert (n = rc) by lia. subst n. simpl. rewrite Hf. reflexivity.
  - simpl. destruct (f rc) eqn:E; [reflexivity|].
    assert (Hlt : (rc <? mr) = true) by (apply Nat.ltb_lt; lia). rewrite Hlt. simpl.
    apply IH; [lia | lia|]. exists n. split; [|exact Hf].
    assert (n <> rc) by (intros ->; congruence). lia.
Qed.

(** With a function that rejects on every attempt, [processWithRetry] counts
    one retry per remaining attempt. *)
Lemma pwr_fails_retries (f : nat -> bool) mr rd : (forall n, f n = false) ->
  forall k rc, mr - rc = k -> rc <= mr -> run_retries (pwr_fuel (S k) f mr rd rc) = k.
Proof.
  intros Hf. induction k as [|k IH]; intros rc Hk Hr; simpl; rewrite Hf.
  - assert (E : (rc <? mr) = false) by (apply Nat.ltb_ge; lia). rewrite E. reflexivity.
  - assert (E : (rc <? mr) = true) by (apply Nat.ltb_lt; lia). rewrite E. simpl. f_equal. apply IH; lia.
Qed.

Lemma slices_some {A} (step : nat) (l : list A) : 0 < step -> exists ls, slices step l = Some ls.
Proof.
  intros Hs. unfold slices. destruct l as [|x t]; [eexists; reflexivity|].
  destruct step; [lia | eexists; reflexivity].
Qed.

(** Delays of the process path: every re-attempt waits [retryDelay]. *)
Lemma pwr_delays_constant fuel (f : nat -> bool) mr rd rc :
  Forall (fun d => d = rd) (run_delays (pwr_fuel fuel f mr rd rc)).
Proof.
  revert rc. induction fuel as [|k IH]; intros rc; simpl; [constructor|].
  destruct (f rc); [constructor|].
  destruct (rc <? mr); simpl; [constructor; [reflexivity | apply IH] | constructor].
Qed.

(** Delays of [processChunkWithRetry]: the attempt with [retryCount = i]
    is followed by a wait of [retryDelay * 2 ^ i]. *)
Lemma pcr_delays_exponential fuel add_ok mr rd rc :
  snd (ChunkBatch.pcr_fuel fuel add_ok mr rd rc)
  = map (fun i => ChunkBatch.or_default rd 1000 * 2 ^ i)
        (seq rc (length (snd (ChunkBatch.pcr_fuel fuel add_ok mr rd rc)))).
Proof.
  revert rc. induction fuel as [|k IH]; intros rc; simpl; [reflexivity|].
  destruct (add_ok rc); [reflexivity|].
  destruct (rc <? ChunkBatch.or_default mr 3); simpl; [|reflexivity].
  f_equal. apply IH.
Qed.

(** C3 (counterexample): with an always-failing [perItemFn] (defaults,
    three items), [process] does not resolve: it rejects once every item
    was counted as failed. *)
Lemma always_fail_never_resolves :
  process nat (fun _ _ => false) (newConfig None None None None) [1; 2; 3]
  = Some (Rejected, mkMetrics 3 0 3 9).
Proof. vm_compute. reflexivity. Qed.

(** C3 (amended): an empty collection resolves at once with all counters
    0; once [process] resolves, [processedItems + failedItems = totalItems =
    items.length]; it resolves when [batchSize] and [maxConcurrent] are
    positive and every item succeeds on one of its attempts [0..maxRetries];
    an always-failing item makes it reject. *)
Theorem process_resolved_counts_all (T : Type) (perItemFn : T -> nat -> bool) (cfg : Config) :
  process T perItemFn cfg [] = Some (Resolved, mkMetrics 0 0 0 0) /\
  (forall items m, process T perItemFn cfg items = Some (Resolved, m) ->
     processedItems m + failedItems m = totalItems m /\ totalItems m = length items) /\
  (forall items, 0 < batchSize cfg -> 0 < maxConcurrent cfg ->
     (forall x, In x items -> exists n, n <= maxRetries cfg /\ perItemFn x n = true) ->
     exists m, process T perItemFn cfg items = Some (Resolved, m)) /\
  (forall items x o m, In x items -> (forall n, perItemFn x n = false) ->
     process T perItemFn cfg items = Some (o, m) -> o = Rejected).
Proof.
  split; [reflexivity|]. split; [|split].
  - intros items m H. unfold process in H.
    destruct (slices (batchSize cfg) items) as [batches|] eqn:Eb; [|discriminate].
    destruct (slices (maxConcurrent cfg) batches) as [groups|] eqn:Eg; [|discriminate].
    injection H as H.
    destruct (run_groups_resolved T perItemFn cfg groups _ _ H) as [H1 H2].
    simpl in H1, H2.
    rewrite (slices_concat _ _ _ Eg), (slices_concat _ _ _ Eb) in H2.
    lia.
  - intros items Hb Hc Hok.
    destruct (slices_some _ items Hb) as [batches Eb].
    destruct (slices_some _ batches Hc) as [groups Eg].
    assert (Hr : fst (run_groups T perItemFn cfg groups (mkMetrics (length items) 0 0 0)) = Resolved).
    { apply run_groups_all_ok. intros x Hx.
      rewrite (slices_concat _ _ _ Eg), (slices_concat _ _ _ Eb) in Hx.
      destruct (Hok x Hx) as [n [Hn Hf]].
      unfold item_run, processWithRetry.
      apply (pwr_succeeds _ _ _ (maxRetries cfg - 0) 0); [reflexivity | lia|].
      exists n. split; [lia | exact Hf]. }
    exists (snd (run_groups T perItemFn cfg groups (mkMetrics (length items) 0 0 0))).
    unfold process. rewrite Eb, Eg.
    destruct (run_groups T perItemFn cfg groups (mkMetrics (length items) 0 0 0)) as [o m].
    simpl in Hr. rewrite Hr. reflexivity.
  - intros items x o m Hin Hfail H. unfold process in H.
    destruct (slices (batchSize cfg) items) as [batches|] eqn:Eb; [|discriminate].
    destruct (slices (maxConcurrent cfg) batches) as [groups|] eqn:Eg; [|discriminate].
    assert (H' : run_groups T perItemFn cfg groups (mkMetrics (length items) 0 0 0) = (o, m)) by congruence.
    assert (Hx : run_ok (item_run T perItemFn cfg x) = false)
      by (apply pwr_always_fails; exact Hfail).
    assert (Hin' : In x (concat (concat groups))).
    { rewrite (slices_concat _ _ _ Eg), (slices_concat _ _ _ Eb). exact Hin. }
    exact (proj1 (run_groups_rejects T perItemFn cfg groups _ o m x Hin' Hx H')).
Qed.

Lemma process_resolved_counts_all_witness :
  process nat (fun _ n => 2 <=? n) (newConfig None None None None) [] = Some (Resolved, mkMetrics 0 0 0 0) /\
  (3 + 0 = 3 /\ 3 = length [1; 2; 3]) /\
  (exists m, process nat (fun _ n => 2 <=? n) (newConfig None None None None) [1; 2; 3] = Some (Resolved, m)) /\
  Rejected = Rejected.
Proof.
  destruct (process_resolved_counts_all nat (fun _ n => 2 <=? n) (newConfig None None None None))
    as (H0 & H1 & H2 & _).
  destruct (process_resolved_counts_all nat (fun _ _ => false) (newConfig None None None None))
    as (_ & _ & _ & H3).
  split; [exact H0|].
  split; [apply (H1 [1; 2; 3] (mkMetrics 3 3 0 6)); vm_compute; reflexivity|].
  split.
  - apply H2; [simpl; lia | simpl; lia|]. intros x _. exists 2. split; [simpl; lia | reflexivity].
  - apply (H3 [1] 1 Rejected (mkMetrics 1 0 1 3)); [left; reflexivity | intros n; reflexivity | vm_compute; reflexivity].
Defined.

(** C4 (counterexample): one batch per group, an always-failing function and
    two items: the run rejects after the first item is counted as failed,
    and the second item is never attempted. *)
Lemma always_fail_aborts_run :
  process nat (fun _ _ => false) (newConfig (Some 1) None None (Some 1)) [1; 2]
  = Some (Rejected, mkMetrics 2 0 1 3).
Proof. vm_compute. reflexivity. Qed.

(** C4 (amended): an item on which [perItemFn] rejects on every attempt
    makes [processWithRetry] count [maxRetries] retries and then reject
    (the rethrow), after it counted the item in [failedItems]; [process]
    rejects. Its metrics are those of the groups of batches up to the first
    group holding a rejected item: the groups after it are never started. *)
Theorem exhausted_item_fails_run (T : Type) (perItemFn : T -> nat -> bool) (cfg : Config)
    (items : list T) (x : T) (o : Outcome) (m : Metrics)
    (Hin : In x items) (Hfail : forall n, perItemFn x n = false)
    (H : process T perItemFn cfg items = Some (o, m)) :
  run_ok (item_run T perItemFn cfg x) = false /\
  run_retries (item_run T perItemFn cfg x) = maxRetries cfg /\
  o = Rejected /\ 1 <= failedItems m /\
  (forall batches groups, slices (batchSize cfg) items = Some batches ->
     slices (maxConcurrent cfg) batches = Some groups ->
     exists gs1 g gs2, groups = gs1 ++ g :: gs2 /\
       items = concat (concat gs1) ++ concat g ++ concat (concat gs2) /\
       (forall y, In y (concat (concat gs1)) -> run_ok (item_run T perItemFn cfg y) = true) /\
       (exists y, In y (concat g) /\ run_ok (item_run T perItemFn cfg y) = false) /\
       m = fold_left (fun acc y => count_item (item_run T perItemFn cfg y) acc)
             (concat (concat gs1) ++ concat g) (mkMetrics (length items) 0 0 0)).
Proof.
  assert (Hx : run_ok (item_run T perItemFn cfg x) = false)
    by (apply pwr_always_fails; exact Hfail).
  assert (Hg : forall batches groups, slices (batchSize cfg) items = Some batches ->
             slices (maxConcurrent cfg) batches = Some groups ->
             run_groups T perItemFn cfg groups (mkMetrics (length items) 0 0 0) = (o, m) /\
             In x (concat (concat groups))).
  { intros batches groups Eb Eg. split.
    - unfold process in H. rewrite Eb, Eg in H. congruence.
    - rewrite (slices_concat _ _ _ Eg), (slices_concat _ _ _ Eb). exact Hin. }
  split; [exact Hx|].
  split; [unfold item_run, processWithRetry; rewrite (pwr_fails_retries _ _ _ Hfail (maxRetries cfg - 0) 0); lia|].
  assert (Hb : exists batches groups, slices (batchSize cfg) items = Some batches /\
                 slices (maxConcurrent cfg) batches = Some groups).
  { unfold process in H.
    destruct (slices (batchSize cfg) items) as [batches|] eqn:Eb0; [|discriminate].
    destruct (slices (maxConcurrent cfg) batches) as [groups|] eqn:Eg0; [|discriminate].
    exists batches, groups. split; [reflexivity | exact Eg0]. }
  destruct Hb as (batches & groups & Eb & Eg).
  destruct (Hg _ _ Eb Eg) as [Hr Hin'].
  destruct (run_groups_rejects T perItemFn cfg groups _ o m x Hin' Hx Hr) as [Ho Hf].
  split; [exact Ho|]. split; [simpl in Hf; lia|].
  intros batches' groups' Eb' Eg'.
  destruct (Hg _ _ Eb' Eg') as [Hr' Hin''].
  destruct (run_groups_first_fail T perItemFn cfg groups' _ o m (ex_intro _ x (conj Hin'' Hx)) Hr')
    as (gs1 & g & gs2 & E & Hok & Hfl & _ & Hm).
  exists gs1, g, gs2. split; [exact E|]. split; [|split; [exact Hok | split; [exact Hfl | exact Hm]]].
  rewrite <- (slices_concat _ _ _ Eb'), <- (slices_concat _ _ _ Eg'), E.
  rewrite concat_app, concat_app. simpl. rewrite concat_app. reflexivity.
Qed.

Lemma exhausted_item_fails_run_witness :
  run_ok (item_run nat (fun _ _ => false) (newConfig (Some 1) None None (Some 1)) 1) = false /\
  run_retries (item_run nat (fun _ _ => false) (newConfig (Some 1) None None (Some 1)) 1)
    = maxRetries (newConfig (Some 1) None None (Some 1)) /\
  Rejected = Rejected /\ 1 <= failedItems (mkMetrics 2 0 1 3) /\
  (forall batches groups, slices (batchSize (newConfig (Some 1) None None (Some 1))) [1; 2] = Some batches ->
     slices (maxConcurrent (newConfig (Some 1) None None (Some 1))) batches = Some groups ->
     exists gs1 g gs2, groups = gs1 ++ g :: gs2 /\
       [1; 2] = concat (concat gs1) ++ concat g ++ concat (concat gs2) /\
       (forall y, In y (concat (concat gs1)) ->
          run_ok (item_run nat (fun _ _ => false) (newConfig (Some 1) None None (Some 1)) y) = true) /\
       (exists y, In y (concat g) /\
          run_ok (item_run nat (fun _ _ => false) (newConfig (Some 1) None None (Some 1)) y) = false) /\
       mkMetrics 2 0 1 3
       = fold_left (fun acc y => count_item (item_run nat (fun _ _ => false) (newConfig (Some 1) None None (Some 1)) y) acc)
           (concat (concat gs1) ++ concat g) (mkMetrics (length [1; 2]) 0 0 0)).
Proof.
  apply (exhausted_item_fails_run nat (fun _ _ => false) (newConfig (Some 1) None None (Some 1))
           [1; 2] 1 Rejected (mkMetrics 2 0 1 3)).
  - simpl. left. reflexivity.
  - intros n. reflexivity.
  - vm_compute. reflexivity.
Defined.

(** C5 (counterexample): with [maxRetries = 3], [retryDelay = 1000] and an
    item failing twice, [process] waits 1000 then 1000, not 1000 then 2000. *)
Lemma process_backoff_not_exponential :
  run_delays (item_run nat (fun _ n => 2 <=? n) (newConfig None None None None) 0) = [1000; 1000] /\
  run_delays (item_run nat (fun _ n => 2 <=? n) (newConfig None None None None) 0)
    <> [1000 * 2 ^ 0; 1000 * 2 ^ 1].
Proof. vm_compute. split; [reflexivity | discriminate]. Qed.

(** C5 (amended): [process] waits a constant [retryDelay] before each
    re-attempt of [perItemFn], and an item failing twice then succeeding
    (defaults) is counted as processed after waits of 1000 and 1000;
    [processChunkWithRetry] waits [retryDelay * 2 ^ attempt], 1000 then 2000. *)
Theorem retry_delays (cfg : Config) (f : nat -> bool) (rc : nat)
    (add_ok : nat -> bool) (mr rd : nat) :
  Forall (fun d => d = retryDelay cfg) (run_delays (processWithRetry cfg f rc)) /\
  snd (ChunkBatch.processChunkWithRetry add_ok mr rd)
    = map (fun i => ChunkBatch.or_default rd 1000 * 2 ^ i)
          (seq 0 (length (snd (ChunkBatch.processChunkWithRetry add_ok mr rd)))) /\
  process nat (fun _ n => 2 <=? n) (newConfig None None None None) [7]
    = Some (Resolved, mkMetrics 1 1 0 2) /\
  run_delays (item_run nat (fun _ n => 2 <=? n) (newConfig None None None None) 7) = [1000; 1000] /\
  ChunkBatch.processChunkWithRetry (fun n => 2 <=? n) 3 1000 = (true, [1000; 2000]).
Proof.
  split; [apply pwr_delays_constant|].
  split; [apply pcr_delays_exponential|].
  vm_compute. repeat split.
Qed.

End BatchFacts.

(** ------------------------------------------------------------------ *)
(** * Caches: round trip, eviction, fault absorption *)

Module CacheFacts.

Section Simple.
Import SimpleCache.
Variable V : Type.

Lemma map_get_set k e (l : list (string * CacheEntry V)) :
  map_get V k (map_set V k e l) = Some e.
Proof.
  induction l as [|[k' e'] t IH]; simpl.
  - rewrite String.eqb_refl. reflexivity.
  - destruct (String.eqb k' k) eqn:E; simpl; rewrite E; [reflexivity | exact IH].
Qed.

Lemma map_get_absent k (l : list (string * CacheEntry V)) :
  ~ In k (map fst l) -> map_get V k l = None.
Proof.
  induction l as [|[k' e'] t IH]; simpl; intros Hn; [reflexivity|].
  destruct (String.eqb k' k) eqn:E.
  - apply String.eqb_eq in E. subst. exfalso. apply Hn. left. reflexivity.
  - apply IH. intros Hk. apply Hn. right. exact Hk.
Qed.

Lemma map_get_delete k (l : list (string * CacheEntry V)) :
  NoDup (map fst l) -> map_get V k (map_delete V k l) = None.
Proof.
  induction l as [|[k' e'] t IH]; simpl; intros Hd; [reflexivity|].
  inversion Hd as [|? ? Hn Hd']; subst.
  destruct (String.eqb k' k) eqn:E.
  - apply String.eqb_eq in E. subst. apply map_get_absent. exact Hn.
  - simpl. rewrite E. apply IH. exact Hd'.
Qed.

Lemma map_set_length k e (l : list (string * CacheEntry V)) :
  length (map_set V k e l) <= S (length l).
Proof.
  induction l as [|[k' e'] t IH]; simpl; [lia|].
  destruct (String.eqb k' k); simpl; lia.
Qed.

Lemma evict_below (ms : Z) (l : list (string * CacheEntry V)) :
  (0 < ms)%Z -> exists l', evict V ms l = Some l' /\ (Z.of_nat (length l') < ms)%Z.
Proof.
  intros Hms. induction l as [|x t IH].
  - exists []. simpl. destruct (ms <=? 0)%Z eqn:E; [apply Z.leb_le in E; lia|].
    split; [reflexivity | simpl; lia].
  - change (evict V ms (x :: t)) with
      (if (ms <=? Z.of_nat (length (x :: t)))%Z then evict V ms t else Some (x :: t)).
    destruct (ms <=? Z.of_nat (length (x :: t)))%Z eqn:E; [exact IH|].
    exists (x :: t). split; [reflexivity|]. apply Z.leb_gt in E. exact E.
Qed.

Lemma set_size_bound now k v (c : Cache V) :
  enabled V c = true -> (0 < maxSize V c)%Z ->
  exists c', set V now k v c = Some c' /\ (Z.of_nat (length (cache V c')) <= maxSize V c)%Z.
Proof.
  intros He Hms. unfold set. rewrite He. simpl.
  destruct (evict_below (maxSize V c) (cache V c) Hms) as (l' & El & Hl).
  rewrite El. eexists. split; [reflexivity|]. simpl.
  pose proof (map_set_length k (mkEntry V v now) l'). lia.
Qed.

End Simple.

Section Evict.
Import SimpleCache.
Variable V : Type.

Lemma evict_cons ms x (t : list (string * CacheEntry V)) :
  evict V ms (x :: t) = if (ms <=? Z.of_nat (S (length t)))%Z then evict V ms t else Some (x :: t).
Proof. reflexivity. Qed.

(** With [maxSize > 0] the eviction loop deletes the oldest entries, one at
    a time, until one slot is free. *)
Lemma evict_pos (ms : Z) (l : list (string * CacheEntry V)) :
  (0 < ms)%Z -> evict V ms l = Some (skipn (S (length l) - Z.to_nat ms) l).
Proof.
  intros Hms. induction l as [|x t IH].
  - simpl. destruct (ms <=? 0)%Z eqn:E; [apply Z.leb_le in E; lia|].
    destruct (Z.to_nat ms); reflexivity.
  - rewrite evict_cons. simpl length.
    destruct (ms <=? Z.of_nat (S (length t)))%Z eqn:E.
    + apply Z.leb_le in E. rewrite IH.
      replace (S (S (length t)) - Z.to_nat ms) with (S (S (length t) - Z.to_nat ms)) by lia.
      reflexivity.
    + apply Z.leb_gt in E.
      replace (S (S (length t)) - Z.to_nat ms) with 0 by lia. reflexivity.
Qed.

(** With [maxSize <= 0] the loop empties the map and then never ends. *)
Lemma evict_nonpos ms (l : list (string * CacheEntry V)) : (ms <= 0)%Z -> evict V ms l = None.
Proof.
  intros Hms. induction l as [|x t IH].
  - simpl. destruct (ms <=? 0)%Z eqn:E; [reflexivity | apply Z.leb_gt in E; lia].
  - rewrite evict_cons.
    destruct (ms <=? Z.of_nat (S (length t)))%Z eqn:E; [exact IH|].
    apply Z.leb_gt in E. lia.
Qed.

Lemma set_pos now k v (c : Cache V) :
  enabled V c = true -> (0 < maxSize V c)%Z ->
  set V now k v c
  = Some (with_store V c (map_set V k (mkEntry V v now)
            (skipn (S (length (cache V c)) - Z.to_nat (maxSize V c)) (cache V c)))).
Proof. intros He Hm. unfold set. rewrite He. simpl. rewrite evict_pos by exact Hm. reflexivity. Qed.

End Evict.

Section Manager.
Import CacheMgr.
Variable V : Type.
Variable vcount : V -> nat.

Lemma insert_hd p q (l : list (string * nat)) :
  HdRel cnt_le q l -> cnt_le q p -> HdRel cnt_le q (insert_by_count p l).
Proof.
  intros Hh Hq. destruct l as [|r t]; simpl.
  - constructor. exact Hq.
  - destruct (Nat.ltb (snd r) (snd p)); constructor; [inversion Hh; assumption | exact Hq].
Qed.

Lemma insert_sorted p (l : list (string * nat)) :
  Sorted cnt_le l -> Sorted cnt_le (insert_by_count p l).
Proof.
  induction l as [|q t IH]; simpl; intros Hs.
  - constructor; constructor.
  - apply Sorted_inv in Hs as [Ht Hh].
    destruct (Nat.ltb (snd q) (snd p)) eqn:E.
    + constructor; [apply IH, Ht|]. apply insert_hd; [exact Hh|].
      apply Nat.ltb_lt in E. unfold cnt_le. lia.
    + constructor; [constructor; assumption|]. constructor.
      apply Nat.ltb_ge in E. unfold cnt_le. lia.
Qed.

Lemma sort_sorted (l : list (string * nat)) : Sorted cnt_le (sort_by_count l).
Proof. induction l as [|p t IH]; simpl; [constructor | apply insert_sorted, IH]. Qed.

Lemma insert_perm p (l : list (string * nat)) : Permutation (p :: l) (insert_by_count p l).
Proof.
  induction l as [|q t IH]; simpl; [reflexivity|].
  destruct (Nat.ltb (snd q) (snd p)); [|reflexivity].
  eapply perm_trans; [apply perm_swap|]. apply perm_skip, IH.
Qed.

Lemma sort_perm (l : list (string * nat)) : Permutation l (sort_by_count l).
Proof.
  induction l as [|p t IH]; simpl; [reflexivity|].
  eapply perm_trans; [apply perm_skip, IH | apply insert_perm].
Qed.

Lemma strongly_sorted_app (l1 l2 : list (string * nat)) p q :
  StronglySorted cnt_le (l1 ++ l2) -> In p l1 -> In q l2 -> cnt_le p q.
Proof.
  induction l1 as [|r t IH]; simpl; intros Hs Hp Hq; [contradiction|].
  apply StronglySorted_inv in Hs as [Hs Hf].
  destruct Hp as [<-|Hp].
  - rewrite Forall_forall in Hf. apply Hf, in_or_app. right. exact Hq.
  - apply IH; assumption.
Qed.

Lemma nodup_same_key k x y (l : list (string * CValue V)) :
  NoDup (map fst l) -> In (k, x) l -> In (k, y) l -> x = y.
Proof.
  induction l as [|[k' v] t IH]; simpl; intros Hd Hx Hy; [contradiction|].
  inversion Hd as [|? ? Hn Hd']; subst.
  destruct Hx as [Hx|Hx], Hy as [Hy|Hy].
  - congruence.
  - injection Hx as <- <-. exfalso. apply Hn. apply (in_map fst) in Hy. exact Hy.
  - injection Hy as <- <-. exfalso. apply Hn. apply (in_map fst) in Hx. exact Hx.
  - apply IH; assumption.
Qed.

Lemma ap_cons k' v (t : list (string * CValue V)) :
  accessPatterns V vcount ((k', v) :: t)
  = match entry_count V vcount v with 0 => [] | S n => [(k', S n)] end ++ accessPatterns V vcount t.
Proof. reflexivity. Qed.

Lemma ap_in k a (l : list (string * CValue V)) :
  In (k, a) (accessPatterns V vcount l) ->
  exists cv, In (k, cv) l /\ entry_count V vcount cv = a /\ 0 < a.
Proof.
  induction l as [|[k' v] t IH]; [intros []|].
  rewrite ap_cons. intros H. apply in_app_or in H as [H|H].
  - destruct (entry_count V vcount v) as [|n] eqn:E; [destruct H|].
    destruct H as [H|[]]. injection H as <- <-.
    exists v. split; [left; reflexivity|]. split; [exact E | lia].
  - destruct (IH H) as [cv [Hin Hc]]. exists cv. split; [right; exact Hin | exact Hc].
Qed.

Lemma ap_key_in k a (l : list (string * CValue V)) :
  In (k, a) (accessPatterns V vcount l) -> In k (map fst l).
Proof.
  intros H. destruct (ap_in k a l H) as [cv [Hin _]]. apply (in_map fst) in Hin. exact Hin.
Qed.

Lemma ap_unique k a b (l : list (string * CValue V)) :
  NoDup (map fst l) -> In (k, a) (accessPatterns V vcount l) ->
  In (k, b) (accessPatterns V vcount l) -> a = b.
Proof.
  intros Hd Ha Hb.
  destruct (ap_in k a l Ha) as [x [Hx [Ex _]]]. destruct (ap_in k b l Hb) as [y [Hy [Ey _]]].
  rewrite <- Ex, <- Ey. rewrite (nodup_same_key k x y l Hd Hx Hy). reflexivity.
Qed.

Lemma ap_keys_sub (l : list (string * CValue V)) :
  WorkerPool.sublist (map fst (accessPatterns V vcount l)) (map fst l).
Proof.
  induction l as [|[k v] t IH]; [constructor|].
  rewrite ap_cons. destruct (entry_count V vcount v); simpl; constructor; exact IH.
Qed.

Lemma clean_keys_in mk (l : list (string * CValue V)) k :
  In k (cleanCache_keys V vcount mk l) -> In k (map fst (accessPatterns V vcount l)).
Proof.
  unfold cleanCache_keys. destruct (at_most_70pct _ _); [intros []|].
  intros Hk.
  apply (Permutation_in _ (Permutation_sym (Permutation_map fst (sort_perm (accessPatterns V vcount l))))).
  rewrite <- (firstn_skipn (removeCount (length (map fst (sort_by_count (accessPatterns V vcount l)))))
                (map fst (sort_by_count (accessPatterns V vcount l)))).
  apply in_or_app. left. exact Hk.
Qed.

Lemma clean_keys_gate_true mk (l : list (string * CValue V)) :
  at_most_70pct (maxKeys_or mk) (length l) = true -> cleanCache_keys V vcount mk l = [].
Proof. intros Hg. unfold cleanCache_keys. rewrite Hg. reflexivity. Qed.

Lemma clean_keys_length mk (l : list (string * CValue V)) :
  at_most_70pct (maxKeys_or mk) (length l) = false ->
  length (cleanCache_keys V vcount mk l)
  = Nat.min (removeCount (length (accessPatterns V vcount l))) (length (accessPatterns V vcount l)).
Proof.
  intros Hg. unfold cleanCache_keys. rewrite Hg.
  rewrite length_firstn, length_map, <- (Permutation_length (sort_perm (accessPatterns V vcount l))).
  reflexivity.
Qed.

(** Among the entries carrying an access count, [cleanCache] deletes a
    prefix of the list sorted by count. *)
Lemma cleanCache_lowest_first (mk : nat) (l : list (string * CValue V)) k1 a1 k2 a2 :
  NoDup (map fst l) ->
  In (k1, a1) (accessPatterns V vcount l) -> In (k2, a2) (accessPatterns V vcount l) ->
  In k1 (cleanCache_keys V vcount mk l) -> ~ In k2 (cleanCache_keys V vcount mk l) -> a1 <= a2.
Proof.
  intros Hd H1 H2 Hk1 Hk2. unfold cleanCache_keys in Hk1, Hk2.
  destruct (at_most_70pct _ _); [contradiction|].
  set (sorted := sort_by_count (accessPatterns V vcount l)) in *.
  set (r := removeCount (length (map fst sorted))) in *.
  rewrite firstn_map in Hk1, Hk2.
  apply in_map_iff in Hk1 as [[k1' a1'] [Ek Hp1]]. simpl in Ek. subst k1'.
  assert (Hq : In (k2, a2) (skipn r sorted)).
  { assert (Hin : In (k2, a2) sorted) by (eapply Permutation_in; [apply sort_perm | exact H2]).
    rewrite <- (firstn_skipn r sorted) in Hin. apply in_app_or in Hin as [Hin|Hin]; [|exact Hin].
    exfalso. apply Hk2. apply in_map_iff. exists (k2, a2). split; [reflexivity | exact Hin]. }
  assert (Ha : a1' = a1).
  { assert (Hin1 : In (k1, a1') sorted)
      by (rewrite <- (firstn_skipn r sorted); apply in_or_app; left; exact Hp1).
    apply (ap_unique k1 a1' a1 l Hd); [|exact H1].
    eapply Permutation_in; [symmetry; apply sort_perm | exact Hin1]. }
  subst a1'.
  assert (Hs : StronglySorted cnt_le (firstn r sorted ++ skipn r sorted)).
  { rewrite firstn_skipn. apply Sorted_StronglySorted; [|apply sort_sorted].
    intros x y z; unfold cnt_le; lia. }
  exact (strongly_sorted_app _ _ _ _ Hs Hp1 Hq).
Qed.

End Manager.

(** C6 (code_bug): neither eviction brings the store down to about 70% of
    its capacity. [Cache.set] on an enabled cache with [maxSize > 0] deletes
    the oldest entries one at a time until a slot is free, then inserts: the
    store stays at capacity. [cleanCache] returns at once while
    [keys.length <= maxKeys * 0.7] in double arithmetic (so it runs at 63 of
    90 keys); otherwise it deletes the first [Math.floor(n * 0.3)] of the [n]
    entries carrying a truthy [_accessCount], lowest count first, and only
    such entries. On a full store of 10 keys, five of them counted, it
    deletes one key and keeps 9; [Cache.set] at capacity 2 keeps 2. *)
Theorem eviction_policy (V : Type) (vcount : V -> nat) :
  (forall now k (v : V) (c : SimpleCache.Cache V),
     SimpleCache.enabled V c = true -> (0 < SimpleCache.maxSize V c)%Z ->
     SimpleCache.set V now k v c
     = Some (SimpleCache.with_store V c (SimpleCache.map_set V k (SimpleCache.mkEntry V v now)
               (skipn (S (length (SimpleCache.cache V c)) - Z.to_nat (SimpleCache.maxSize V c))
                  (SimpleCache.cache V c)))) /\
     exists c', SimpleCache.set V now k v c = Some c' /\
       (Z.of_nat (length (SimpleCache.cache V c')) <= SimpleCache.maxSize V c)%Z) /\
  (forall mk (l : list (string * CacheMgr.CValue V)),
     CacheMgr.at_most_70pct (CacheMgr.maxKeys_or mk) (length l) = true ->
     CacheMgr.cleanCache_keys V vcount mk l = []) /\
  (forall mk (l : list (string * CacheMgr.CValue V)),
     CacheMgr.at_most_70pct (CacheMgr.maxKeys_or mk) (length l) = false ->
     length (CacheMgr.cleanCache_keys V vcount mk l)
     = Nat.min (CacheMgr.removeCount (length (CacheMgr.accessPatterns V vcount l)))
         (length (CacheMgr.accessPatterns V vcount l))) /\
  (forall mk (l : list (string * CacheMgr.CValue V)) k,
     In k (CacheMgr.cleanCache_keys V vcount mk l) ->
     exists cv, In (k, cv) l /\ 0 < CacheMgr.entry_count V vcount cv) /\
  (forall mk (l : list (string * CacheMgr.CValue V)) k1 a1 k2 a2,
     NoDup (map fst l) ->
     In (k1, a1) (CacheMgr.accessPatterns V vcount l) -> In (k2, a2) (CacheMgr.accessPatterns V vcount l) ->
     In k1 (CacheMgr.cleanCache_keys V vcount mk l) -> ~ In k2 (CacheMgr.cleanCache_keys V vcount mk l) ->
     a1 <= a2) /\
  (CacheMgr.at_most_70pct 90 63 = false /\
   CacheMgr.cleanCache_keys nat (fun _ => 0) 10 CacheMgr.full_store = ["k1_metadata"%string] /\
   length (CacheMgr.cleanCache nat (fun _ => 0) 10 CacheMgr.full_store) = 9 /\
   exists c', SimpleCache.set nat 0 "c"%string 3
                (SimpleCache.mkCache nat [("a"%string, SimpleCache.mkEntry nat 1 0);
                                          ("b"%string, SimpleCache.mkEntry nat 2 0)] true 2 86400000)
              = Some c' /\ map fst (SimpleCache.cache nat c') = ["b"%string; "c"%string]).
Proof.
  split; [|split; [|split; [|split; [|split]]]].
  - intros now k v c He Hm. split; [apply set_pos; assumption|]. apply set_size_bound; assumption.
  - intros mk l. apply clean_keys_gate_true.
  - intros mk l. apply clean_keys_length.
  - intros mk l k Hk. apply clean_keys_in in Hk.
    apply in_map_iff in Hk as [[k' a] [Ek Hap]]. simpl in Ek. subst k'.
    destruct (ap_in V vcount k a l Hap) as [cv [Hin [Ec Ha]]].
    exists cv. split; [exact Hin | lia].
  - intros mk l k1 a1 k2 a2. apply cleanCache_lowest_first.
  - split; [vm_compute; reflexivity|]. split; [vm_compute; reflexivity|].
    split; [vm_compute; reflexivity|].
    eexists. split; [reflexivity | vm_compute; reflexivity].
Qed.

Lemma eviction_policy_witness :
  (SimpleCache.set nat 0 "c"%string 3
     (SimpleCache.mkCache nat [("a"%string, SimpleCache.mkEntry nat 1 0); ("b"%string, SimpleCache.mkEntry nat 2 0)]
        true 2 86400000)
   = Some (SimpleCache.mkCache nat [("b"%string, SimpleCache.mkEntry nat 2 0); ("c"%string, SimpleCache.mkEntry nat 3 0)]
             true 2 86400000)) /\
  CacheMgr.cleanCache_keys nat (fun _ => 0) 10 (firstn 6 CacheMgr.full_store) = [] /\
  length (CacheMgr.cleanCache_keys nat (fun _ => 0) 5 CacheMgr.full_store) = 1 /\
  1 <= 2.
Proof.
  destruct (eviction_policy nat (fun _ => 0)) as [Hset [Hg [Hlen [_ [Hlow _]]]]].
  split; [|split; [|split]].
  - destruct (Hset 0%Z "c"%string 3 (SimpleCache.mkCache nat [("a"%string, SimpleCache.mkEntry nat 1 0); ("b"%string, SimpleCache.mkEntry nat 2 0)] true 2 86400000))
      as [H _]; [reflexivity | reflexivity |]. rewrite H. reflexivity.
  - apply Hg. vm_compute. reflexivity.
  - rewrite Hlen; vm_compute; reflexivity.
  - apply (Hlow 10 CacheMgr.full_store "k1_metadata"%string 1 "k2_metadata"%string 2).
    + vm_compute. repeat constructor; simpl; intros Hk;
        repeat (destruct Hk as [Hk|Hk]; [discriminate|]); exact Hk.
    + vm_compute. left. reflexivity.
    + vm_compute. right. left. reflexivity.
    + vm_compute. left. reflexivity.
    + vm_compute. intros [Hk|Hk]; [discriminate | exact Hk].
Defined.

(** C7 (counterexample): a cache built with [enabled: false] stores nothing;
    [set] then [get] returns null. *)
Lemma disabled_cache_no_round_trip :
  exists c', SimpleCache.set nat 0 "k"%string 1 (SimpleCache.newCache nat (Some false) None None) = Some c' /\
  fst (SimpleCache.get nat 0 "k"%string c') = None.
Proof. eexists. split; reflexivity. Qed.

(** C7 (amended): on an enabled cache with [maxSize > 0], [set(k, v)] at
    [t0] returns, and a [get(k)] at [t1] with [t1 - t0 <= ttl] returns [v]; a
    [get] more than [ttl] after the entry's timestamp returns null and
    deletes the entry. A cache built with [enabled: false] is left unchanged
    by [set] and every [get] on it returns null. With [maxSize <= 0], [set]
    on an enabled cache never returns. *)
Theorem cache_round_trip_and_expiry (V : Type) :
  (forall (c : SimpleCache.Cache V) k (v : V) t0,
     SimpleCache.enabled V c = true -> (0 < SimpleCache.maxSize V c)%Z ->
     exists c', SimpleCache.set V t0 k v c = Some c') /\
  (forall (c c' : SimpleCache.Cache V) k (v : V) t0 t1,
     SimpleCache.enabled V c = true -> (t1 - t0 <= SimpleCache.ttl V c)%Z ->
     SimpleCache.set V t0 k v c = Some c' -> fst (SimpleCache.get V t1 k c') = Some v) /\
  (forall (c : SimpleCache.Cache V) k t e,
     SimpleCache.enabled V c = true -> NoDup (map fst (SimpleCache.cache V c)) ->
     SimpleCache.map_get V k (SimpleCache.cache V c) = Some e ->
     (SimpleCache.ttl V c < t - SimpleCache.timestamp V e)%Z ->
     SimpleCache.get V t k c
       = (None, SimpleCache.with_store V c (SimpleCache.map_delete V k (SimpleCache.cache V c))) /\
     SimpleCache.map_get V k (SimpleCache.map_delete V k (SimpleCache.cache V c)) = None) /\
  (forall (c : SimpleCache.Cache V) k (v : V) t0,
     SimpleCache.enabled V c = false ->
     SimpleCache.set V t0 k v c = Some c /\ forall t1 k', SimpleCache.get V t1 k' c = (None, c)) /\
  (forall (c : SimpleCache.Cache V) k (v : V) t0,
     SimpleCache.enabled V c = true -> (SimpleCache.maxSize V c <= 0)%Z ->
     SimpleCache.set V t0 k v c = None).
Proof.
  split; [|split; [|split; [|split]]].
  - intros c k v t0 He Hm. eexists. apply set_pos; assumption.
  - intros c c' k v t0 t1 He Ht Hs. unfold SimpleCache.set in Hs. rewrite He in Hs. simpl in Hs.
    destruct (SimpleCache.evict V (SimpleCache.maxSize V c) (SimpleCache.cache V c)) as [l|];
      [|discriminate].
    injection Hs as <-. unfold SimpleCache.get. simpl. rewrite He. simpl.
    rewrite map_get_set. simpl.
    destruct (SimpleCache.ttl V c <? t1 - t0)%Z eqn:E; [apply Z.ltb_lt in E; lia | reflexivity].
  - intros c k t e He Hd Hg Ht. split.
    + unfold SimpleCache.get. rewrite He, Hg. simpl.
      apply Z.ltb_lt in Ht. rewrite Ht. reflexivity.
    + apply map_get_delete. exact Hd.
  - intros c k v t0 He. unfold SimpleCache.set, SimpleCache.get. rewrite He. simpl.
    split; [reflexivity | intros; reflexivity].
  - intros c k v t0 He Hm. unfold SimpleCache.set. rewrite He. simpl.
    rewrite evict_nonpos by exact Hm. reflexivity.
Qed.

Lemma cache_round_trip_and_expiry_witness :
  (exists c', SimpleCache.set nat 0 "k"%string 1 (SimpleCache.newCache nat None None None) = Some c') /\
  (exists c', SimpleCache.set nat 0 "k"%string 1 (SimpleCache.newCache nat None None None) = Some c' /\
   fst (SimpleCache.get nat 5 "k"%string c') = Some 1 /\
   (SimpleCache.get nat 86400001 "k"%string c'
      = (None, SimpleCache.with_store nat c' (SimpleCache.map_delete nat "k"%string (SimpleCache.cache nat c'))) /\
    SimpleCache.map_get nat "k"%string (SimpleCache.map_delete nat "k"%string (SimpleCache.cache nat c')) = None)) /\
  (SimpleCache.set nat 0 "k"%string 1 (SimpleCache.newCache nat (Some false) None None)
   = Some (SimpleCache.newCache nat (Some false) None None) /\
   forall t1 k', SimpleCache.get nat t1 k' (SimpleCache.newCache nat (Some false) None None)
                 = (None, SimpleCache.newCache nat (Some false) None None)) /\
  SimpleCache.set nat 0 "k"%string 1
    (SimpleCache.mkCache nat [("a"%string, SimpleCache.mkEntry nat 1 0)] true 0 86400000) = None.
Proof.
  destruct (cache_round_trip_and_expiry nat) as [Hok [Hrt [Hexp [Hdis Hhang]]]].
  split; [|split; [|split]].
  - apply Hok; [reflexivity | vm_compute; reflexivity].
  - exists (SimpleCache.with_store nat (SimpleCache.newCache nat None None None)
         (SimpleCache.map_set nat "k"%string (SimpleCache.mkEntry nat 1 0) [])).
    split; [reflexivity|]. split.
    + apply (Hrt (SimpleCache.newCache nat None None None) _ "k"%string 1 0%Z 5%Z);
        [reflexivity | vm_compute; discriminate | reflexivity].
    + apply (Hexp _ "k"%string 86400001%Z (SimpleCache.mkEntry nat 1 0)).
      * reflexivity.
      * vm_compute. repeat constructor. intros [].
      * reflexivity.
      * vm_compute. reflexivity.
  - apply Hdis. reflexivity.
  - apply Hhang; [reflexivity | vm_compute; discriminate].
Defined.

(** C8 (code_bug): every fault inside the [try] of [CacheManager.get] is
    absorbed as a null result, but a key whose [JSON.stringify] throws
    (a BigInt among the filters) escapes to the caller. *)
Theorem cache_get_fault_handling (V : Type) :
  (forall query filters (fetchFunction : option (CacheMgr.Outcome V)) s,
     match CacheMgr.generateKey query filters with
     | CacheMgr.Ret _ => exists r s', CacheMgr.get V query filters fetchFunction s = (CacheMgr.Ret r, s')
     | CacheMgr.Throw e => CacheMgr.get V query filters fetchFunction s = (CacheMgr.Throw e, s)
     end) /\
  CacheMgr.get nat "q"%string (CacheMgr.JObj [("videoId"%string, CacheMgr.JBigInt "42"%string)]) None
    (CacheMgr.mkState nat [] 1000 0 0 0)
  = (CacheMgr.Throw "TypeError: Do not know how to serialize a BigInt"%string, CacheMgr.mkState nat [] 1000 0 0 0).
Proof.
  split; [|vm_compute; reflexivity].
  intros query filters fetchFunction s. unfold CacheMgr.get.
  destruct (CacheMgr.generateKey query filters) as [key|e]; [|reflexivity].
  unfold CacheMgr.try_catch.
  destruct (CacheMgr.get_body V key fetchFunction s) as [[r|e] s'].
  - exists r, s'. reflexivity.
  - exists None. eexists. reflexivity.
Qed.

End CacheFacts.

(** ------------------------------------------------------------------ *)
(** * Worker pool: bookkeeping invariants of the reachable states *)

Module PoolInvariants.
Import WorkerPool.

Section Sublist.
Context {A : Type}.

Lemma sublist_refl (l : list A) : sublist l l.
Proof. induction l; constructor; assumption. Qed.

Lemma sublist_nil_l (l : list A) : sublist [] l.
Proof. induction l; constructor; assumption. Qed.

Lemma sublist_app (a b c d : list A) : sublist a b -> sublist c d -> sublist (a ++ c) (b ++ d).
Proof. intros H1 H2. induction H1; simpl; try constructor; assumption. Qed.

Lemma sublist_In (l l' : list A) x : sublist l l' -> In x l -> In x l'.
Proof.
  intros H. induction H; simpl; intros Hx; [exact Hx | right; auto |].
  destruct Hx as [<-|Hx]; [left; reflexivity | right; auto].
Qed.

Lemma sublist_NoDup (l l' : list A) : sublist l l' -> NoDup l' -> NoDup l.
Proof.
  intros H. induction H; intros Hd; [exact Hd | inversion Hd; auto |].
  inversion Hd as [|? ? Hn Hd']; subst. constructor; [|auto].
  intros Hx. apply Hn. eapply sublist_In; eassumption.
Qed.

Lemma sublist_length (l l' : list A) : sublist l l' -> length l <= length l'.
Proof. intros H. induction H; simpl; lia. Qed.

Lemma sublist_filter (f : A -> bool) (l : list A) : sublist (filter f l) l.
Proof. induction l as [|x t IH]; simpl; [constructor|]. destruct (f x); constructor; exact IH. Qed.

Lemma sublist_remove_first (eqb : A -> A -> bool) x (l : list A) : sublist (remove_first eqb x l) l.
Proof.
  induction l as [|y t IH]; simpl; [constructor|].
  destruct (eqb x y); constructor; [apply sublist_refl | exact IH].
Qed.

Lemma sublist_map {B} (f : A -> B) (l l' : list A) : sublist l l' -> sublist (map f l) (map f l').
Proof. intros H. induction H; simpl; constructor; assumption. Qed.

End Sublist.

Lemma remove_first_In_neq (w x : nat) l : In x l -> x <> w -> In x (remove_first Nat.eqb w l).
Proof.
  induction l as [|y t IH]; simpl; [contradiction|]. intros [Ey|Hx] Hn.
  - subst y. destruct (Nat.eqb w x) eqn:E; [apply Nat.eqb_eq in E; congruence | left; reflexivity].
  - destruct (Nat.eqb w y); [exact Hx | right; auto].
Qed.

Lemma remove_first_NoDup_notin (w : nat) l : NoDup l -> ~ In w (remove_first Nat.eqb w l).
Proof.
  induction l as [|y t IH]; simpl; intros Hd; [tauto|]. inversion Hd as [|? ? Hn Hd']; subst.
  destruct (Nat.eqb w y) eqn:E.
  - apply Nat.eqb_eq in E. subst. exact Hn.
  - simpl. intros [Hy|Hy]; [apply Nat.eqb_neq in E; congruence | exact (IH Hd' Hy)].
Qed.

Lemma pop_some {B} (l : list B) x r : pop l = Some (x, r) -> l = r ++ [x].
Proof.
  unfold pop. intros H. destruct (rev l) as [|y t] eqn:E; [discriminate|].
  injection H as <- <-. rewrite <- (rev_involutive l), E. reflexivity.
Qed.


Lemma pair_eqb_eq p q : pair_eqb p q = true -> p = q.
Proof.
  destruct p as [a b], q as [c d]. unfold pair_eqb. simpl.
  intros H. apply andb_true_iff in H as [H1 H2].
  apply Nat.eqb_eq in H1, H2. subst. reflexivity.
Qed.

Lemma remove_first_perm (p : nat * nat) l :
  existsb (pair_eqb p) l = true -> Permutation l (p :: remove_first pair_eqb p l).
Proof.
  induction l as [|q t IH]; simpl; [discriminate|].
  destruct (pair_eqb p q) eqn:E.
  - apply pair_eqb_eq in E. subst. intros _. reflexivity.
  - simpl. intros H. eapply perm_trans; [apply perm_skip, IH, H | apply perm_swap].
Qed.


Section Invariant.
Variables minOpt maxOpt : nat.


Lemma Inv_init : Inv (initPool minOpt).
Proof.
  unfold Inv, held. simpl. split; [reflexivity|]. split; [constructor|].
  split; [intros x []|]. split; [constructor | intros w []].
Qed.

Lemma Inv_createWorker s : Inv s -> Inv (snd (createWorker s)).
Proof.
  intros (Hw & Hd & Hi & Ha & Hn). unfold Inv, held, createWorker in *. simpl.
  assert (Hf : ~ In (nextWorker s) (alive s)) by (intros H; specialize (Hn _ H); lia).
  repeat split.
  - exact Hw.
  - rewrite <- app_assoc. apply (Permutation_NoDup (Permutation_middle _ _ _)).
    constructor; [intros H; apply Hf, Hi, H | exact Hd].
  - intros x Hx. rewrite <- app_assoc in Hx. apply in_app_or in Hx as [Hx|[<-|Hx]];
      apply in_or_app; [left; apply Hi, in_or_app; left; exact Hx | right; left; reflexivity
                       | left; apply Hi, in_or_app; right; exact Hx].
  - apply NoDup_app; [exact Ha | constructor; [intros [] | constructor] |].
    intros x Hx [<-|[]]. exact (Hf Hx).
  - intros w Hx. apply in_app_or in Hx as [Hx|[<-|[]]]; [specialize (Hn _ Hx); lia | lia].
Qed.

(** A state whose worker fields shrank to sublists, the threads unchanged. *)
Lemma Inv_sub s s' :
  Inv s -> workers s' = [] -> sublist (held s') (held s) -> alive s' = alive s ->
  nextWorker s' = nextWorker s -> Inv s'.
Proof.
  intros (Hw & Hd & Hi & Ha & Hn) Hw' Hs Ha' Hn'. unfold Inv. rewrite Ha', Hn'.
  repeat split; try assumption.
  - eapply sublist_NoDup; eassumption.
  - intros x Hx. apply Hi. eapply sublist_In; eassumption.
Qed.

Lemma Inv_perm s s' :
  Inv s -> workers s' = [] -> Permutation (held s') (held s) -> alive s' = alive s ->
  nextWorker s' = nextWorker s -> Inv s'.
Proof.
  intros (Hw & Hd & Hi & Ha & Hn) Hw' Hp Ha' Hn'. unfold Inv. rewrite Ha', Hn'.
  repeat split; try assumption.
  - eapply Permutation_NoDup; [symmetry; exact Hp | exact Hd].
  - intros x Hx. apply Hi. eapply Permutation_in; eassumption.
Qed.

Lemma Inv_same s s' :
  Inv s -> workers s' = workers s -> idleWorkers s' = idleWorkers s -> posted s' = posted s ->
  alive s' = alive s -> nextWorker s' = nextWorker s -> Inv s'.
Proof.
  intros H Hw Hi Hp Ha Hn. apply (Inv_sub s); try assumption.
  - rewrite Hw. apply H.
  - unfold held. rewrite Hi, Hp. apply sublist_refl.
Qed.

Lemma Inv_processNextTask s : Inv s -> Inv (processNextTask s).
Proof.
  intros H. unfold processNextTask.
  destruct (taskQueue s) as [|t q]; [exact H|].
  destruct (pop (idleWorkers s)) as [[w r]|] eqn:Ep; [|exact H].
  apply pop_some in Ep.
  assert (Hw : workers s = []) by apply H.
  destruct (lookup_script _ _) as [p|]; [destruct p|].
  - apply (Inv_sub s); try reflexivity; try exact H; [exact Hw|].
    unfold held. simpl. rewrite Ep, <- app_assoc. apply sublist_app; [apply sublist_refl|].
    constructor. apply sublist_refl.
  - apply (Inv_perm s); try reflexivity; try exact H; [exact Hw|].
    unfold held. simpl. rewrite Ep, map_app, <- !app_assoc. simpl.
    apply Permutation_app_head. symmetry. apply Permutation_cons_append.
  - apply (Inv_sub s); try reflexivity; try exact H; [exact Hw|].
    unfold held. simpl. rewrite Ep, <- app_assoc. apply sublist_app; [apply sublist_refl|].
    constructor. apply sublist_refl.
Qed.

Lemma Inv_removeWorker w s : Inv s -> Inv (removeWorker w s).
Proof.
  intros H. apply (Inv_sub s); try reflexivity; [exact H | |].
  - apply WorkerPoolFacts.removeWorker_workers. apply H.
  - unfold held, removeWorker. simpl. apply sublist_app; [apply sublist_remove_first | apply sublist_refl].
Qed.

Lemma Inv_terminate_remove w s : Inv s -> Inv (removeWorker w (terminate w s)).
Proof.
  intros (Hw & Hd & Hi & Ha & Hn).
  assert (Hdi : NoDup (idleWorkers s)) by (apply NoDup_app_remove_r in Hd; exact Hd).
  assert (Hs : sublist (held (removeWorker w (terminate w s))) (held s)).
  { unfold held, removeWorker, terminate. simpl.
    apply sublist_app; [apply sublist_remove_first | apply sublist_map, sublist_filter]. }
  unfold Inv. repeat split.
  - unfold removeWorker, terminate. simpl. rewrite Hw. reflexivity.
  - eapply sublist_NoDup; eassumption.
  - intros x Hx. unfold removeWorker, terminate. simpl. apply remove_first_In_neq.
    + apply Hi. eapply sublist_In; eassumption.
    + unfold held, removeWorker, terminate in Hx. simpl in Hx.
      apply in_app_or in Hx as [Hx|Hx].
      * intros ->. exact (remove_first_NoDup_notin w _ Hdi Hx).
      * apply in_map_iff in Hx as [[a b] [Ea Hab]]. simpl in Ea. subst a.
        apply filter_In in Hab as [_ Hab]. simpl in Hab. intros ->.
        rewrite Nat.eqb_refl in Hab. discriminate.
  - unfold removeWorker, terminate. simpl. eapply sublist_NoDup; [apply sublist_remove_first | exact Ha].
  - intros x Hx. unfold removeWorker, terminate in Hx. simpl in Hx. apply Hn.
    eapply sublist_In; [apply sublist_remove_first | exact Hx].
Qed.

Lemma Inv_handleWorkerError w s : Inv s -> Inv (handleWorkerError w s).
Proof. intros H. apply Inv_createWorker, Inv_removeWorker, H. Qed.

Lemma Inv_handleWorkerExit w s : Inv s -> Inv (handleWorkerExit minOpt w s).
Proof.
  intros H. unfold handleWorkerExit.
  destruct (_ <? _); [apply Inv_createWorker|]; apply Inv_removeWorker, H.
Qed.

Lemma Inv_executeTask ty s : Inv s -> Inv (executeTask maxOpt ty s).
Proof.
  intros H. unfold executeTask. apply Inv_processNextTask.
  assert (H1 : Inv (set_queue (set_nextTask s (S (nextTask s))) (taskQueue s ++ [mkTask (nextTask s) ty])))
    by (apply (Inv_same s); try reflexivity; exact H).
  destruct (createGuard _ _); [apply Inv_createWorker|]; exact H1.
Qed.

Lemma Inv_reply w tid err s :
  Inv s -> existsb (pair_eqb (w, tid)) (posted s) = true ->
  Inv (onMessage w tid err (set_posted s (remove_first pair_eqb (w, tid) (posted s)))).
Proof.
  intros H He. pose proof (remove_first_perm _ _ He) as Hp.
  assert (Hw : workers s = []) by apply H.
  unfold onMessage. simpl. destruct (find _ _) as [t|].
  - apply Inv_processNextTask. apply (Inv_perm s); try (destruct err; reflexivity); [exact H | |].
    + destruct err; exact Hw.
    + unfold held. destruct err; simpl; rewrite <- app_assoc;
        apply Permutation_app_head; simpl; symmetry; apply (Permutation_map fst) in Hp; exact Hp.
  - apply (Inv_sub s); try reflexivity; try exact H; [exact Hw|].
    unfold held. simpl. apply sublist_app; [apply sublist_refl | apply sublist_map, sublist_remove_first].
Qed.

Lemma Inv_timeout tid w s : Inv s -> Inv (onTimeout tid w s).
Proof.
  intros H. unfold onTimeout. destruct (find _ _) as [t|]; [|exact H].
  apply Inv_handleWorkerError. apply (Inv_same s); try reflexivity. exact H.
Qed.

Lemma Inv_shutdown s : Inv s -> Inv (shutdown s).
Proof.
  intros H. assert (Hw : workers s = []) by apply H.
  unfold shutdown. rewrite Hw. simpl. apply (Inv_sub s); try reflexivity; [exact H|].
  unfold held. simpl. apply (sublist_app [] (idleWorkers s)); [apply sublist_nil_l | apply sublist_refl].
Qed.

Lemma Inv_run_event e s s' : Inv s -> run_event minOpt maxOpt e s = Some s' -> Inv s'.
Proof.
  intros H He. destruct e; simpl in He.
  - destruct (initPending s); inversion He; subst.
    apply (Inv_same (snd (createWorker s))); try reflexivity. apply Inv_createWorker, H.
  - inversion He; subst. apply (Inv_same s); try reflexivity. exact H.
  - inversion He; subst. apply Inv_executeTask, H.
  - destruct (existsb _ _) eqn:E; inversion He; subst. apply Inv_reply; assumption.
  - destruct (existsb _ _); inversion He; subst. apply Inv_timeout.
    apply (Inv_same s); try reflexivity. exact H.
  - destruct (existsb _ _); inversion He; subst. apply Inv_createWorker, Inv_terminate_remove, H.
  - destruct (existsb _ _); inversion He; subst. apply Inv_handleWorkerExit.
    apply (Inv_same s); try reflexivity. exact H.
  - destruct (initPending s); inversion He; subst.
    rewrite WorkerPoolFacts.cleanupIdleWorkers_empty; [exact H | apply H].
  - destruct (taskQueue s); inversion He; subst. apply Inv_shutdown, H.
Qed.

Lemma Inv_run_events es s s' : Inv s -> run_events minOpt maxOpt es s = Some s' -> Inv s'.
Proof.
  revert s. induction es as [|e es IH]; intros s H Hr; simpl in Hr.
  - inversion Hr; subst; exact H.
  - destruct (run_event minOpt maxOpt e s) as [s1|] eqn:E; [|discriminate].
    apply (IH s1); [eapply Inv_run_event; eauto | exact Hr].
Qed.



Lemma Acc_same s s' : acc_fields s' = acc_fields s -> Acc s -> Acc s'.
Proof.
  unfold acc_fields, Acc. intros E. injection E as E1 E2 E3 E4.
  rewrite E1, E2, E3, E4. tauto.
Qed.

Lemma acc_processNextTask s : acc_fields (processNextTask s) = acc_fields s.
Proof.
  unfold processNextTask. destruct (taskQueue s) as [|t q] eqn:Eq; [reflexivity|].
  destruct (pop (idleWorkers s)) as [[w r]|]; [|reflexivity].
  destruct (lookup_script _ _) as [p|]; [destruct p|]; unfold acc_fields; simpl; rewrite Eq; reflexivity.
Qed.

Lemma acc_handleWorkerError w s : acc_fields (handleWorkerError w s) = acc_fields s.
Proof. reflexivity. Qed.

Lemma acc_handleWorkerExit w s : acc_fields (handleWorkerExit minOpt w s) = acc_fields s.
Proof. unfold handleWorkerExit. destruct (_ <? _); reflexivity. Qed.

Lemma acc_shutdown s : workers s = [] -> acc_fields (shutdown s) = acc_fields s.
Proof. intros Hw. unfold shutdown. rewrite Hw. reflexivity. Qed.

Lemma filter_id_absent (q : list WorkerTask) i :
  ~ In i (map task_id q) -> filter (fun u => negb (Nat.eqb (task_id u) i)) q = q.
Proof.
  induction q as [|u q IH]; simpl; intros Hn; [reflexivity|].
  destruct (Nat.eqb (task_id u) i) eqn:E.
  - apply Nat.eqb_eq in E. exfalso. apply Hn. left. exact E.
  - simpl. f_equal. apply IH. intros H. apply Hn. right. exact H.
Qed.

Lemma filter_id_length (q : list WorkerTask) t :
  NoDup (map task_id q) -> In t q ->
  length (filter (fun u => negb (Nat.eqb (task_id u) (task_id t))) q) + 1 = length q.
Proof.
  induction q as [|u q IH]; simpl; [contradiction|]. intros Hd Hin.
  inversion Hd as [|? ? Hn Hd']; subst.
  destruct Hin as [<-|Hin].
  - rewrite Nat.eqb_refl. simpl. rewrite filter_id_absent by exact Hn. lia.
  - destruct (Nat.eqb (task_id u) (task_id t)) eqn:E.
    + apply Nat.eqb_eq in E. exfalso. apply Hn. rewrite E. apply in_map, Hin.
    + simpl. rewrite (IH Hd' Hin). reflexivity.
Qed.

Lemma remove_task_length (q : list WorkerTask) t :
  In t q -> length (remove_first task_eqb t q) + 1 = length q.
Proof.
  induction q as [|u q IH]; simpl; [contradiction|]. intros Hin.
  destruct (task_eqb t u) eqn:E; [lia|].
  destruct Hin as [<-|Hin]; [unfold task_eqb in E; rewrite Nat.eqb_refl in E; discriminate|].
  simpl. rewrite (IH Hin). reflexivity.
Qed.

Lemma Acc_init : Acc (initPool minOpt).
Proof. unfold Acc. simpl. split; [reflexivity|]. split; [constructor | intros t []]. Qed.

Lemma Acc_executeTask ty s : Acc s -> Acc (executeTask maxOpt ty s).
Proof.
  intros (H1 & H2 & H3). unfold executeTask.
  set (s1 := set_queue (set_nextTask s (S (nextTask s))) (taskQueue s ++ [mkTask (nextTask s) ty])).
  assert (A1 : Acc s1).
  { unfold Acc, s1. simpl. rewrite length_app, map_app. simpl. split; [lia|]. split.
    - apply NoDup_app; [exact H2 | constructor; [intros [] | constructor] |].
      intros x Hx [<-|[]]. apply in_map_iff in Hx as [u [Eu Hu]]. specialize (H3 _ Hu). lia.
    - intros t Ht. apply in_app_or in Ht as [Ht|[<-|[]]]; [specialize (H3 _ Ht); lia | simpl; lia]. }
  apply (Acc_same s1); [|exact A1]. rewrite acc_processNextTask.
  destruct (createGuard _ _); reflexivity.
Qed.

Lemma find_some_In {B} (f : B -> bool) l x : find f l = Some x -> In x l /\ f x = true.
Proof.
  induction l as [|y t IH]; simpl; [discriminate|].
  destruct (f y) eqn:E; [intros H; injection H as <-; split; [left; reflexivity | exact E]|].
  intros H. destruct (IH H) as [H1 H2]. split; [right; exact H1 | exact H2].
Qed.

Lemma Acc_onMessage w tid err s : Acc s -> Acc (onMessage w tid err s).
Proof.
  intros (H1 & H2 & H3). unfold onMessage.
  destruct (find _ _) as [t|] eqn:Ef; [|unfold Acc; tauto].
  apply find_some_In in Ef as [Hin Et]. apply Nat.eqb_eq in Et. subst tid.
  apply (Acc_same (set_idle (set_queue (set_settled (if err then set_failed s (S (failedTasks s))
                   else set_completed s (S (completedTasks s))) (settled s ++ [task_id t]))
                   (filter (fun u => negb (Nat.eqb (task_id u) (task_id t))) (taskQueue s)))
                   (idleWorkers s ++ [w])));
    [destruct err; apply acc_processNextTask|].
  pose proof (filter_id_length _ _ H2 Hin) as Hl.
  assert (Hs : sublist (map task_id (filter (fun u => negb (Nat.eqb (task_id u) (task_id t))) (taskQueue s)))
                       (map task_id (taskQueue s))) by apply sublist_map, sublist_filter.
  unfold Acc. destruct err; simpl; (split; [lia|]); (split; [eapply sublist_NoDup; eassumption|]);
    intros u Hu; apply filter_In in Hu as [Hu _]; apply H3, Hu.
Qed.

Lemma Acc_onTimeout tid w s : Acc s -> Acc (onTimeout tid w s).
Proof.
  intros (H1 & H2 & H3). unfold onTimeout.
  destruct (find _ _) as [t|] eqn:Ef; [|unfold Acc; tauto].
  apply find_some_In in Ef as [Hin _].
  apply (Acc_same (set_settled (set_failed (set_queue s (remove_first task_eqb t (taskQueue s)))
                                           (S (failedTasks s))) (settled s ++ [tid])));
    [apply acc_handleWorkerError|].
  pose proof (remove_task_length _ _ Hin) as Hl.
  assert (Hs : sublist (map task_id (remove_first task_eqb t (taskQueue s))) (map task_id (taskQueue s)))
    by apply sublist_map, sublist_remove_first.
  unfold Acc. simpl. split; [lia|]. split; [eapply sublist_NoDup; eassumption|].
  intros u Hu. apply H3. eapply sublist_In; [apply sublist_remove_first | exact Hu].
Qed.

Lemma acc_next s s' : acc_fields s' = acc_fields s -> nextTask s' = nextTask s.
Proof. unfold acc_fields. intros E. injection E as _ _ _ E. exact E. Qed.

Lemma executeTask_next ty s : nextTask (executeTask maxOpt ty s) = S (nextTask s).
Proof.
  unfold executeTask. rewrite (acc_next _ _ (acc_processNextTask _)).
  destruct (createGuard _ _); reflexivity.
Qed.

Lemma onMessage_next w tid err s : nextTask (onMessage w tid err s) = nextTask s.
Proof.
  unfold onMessage. destruct (find _ _); [|reflexivity].
  rewrite (acc_next _ _ (acc_processNextTask _)). destruct err; reflexivity.
Qed.

Lemma onTimeout_next tid w s : nextTask (onTimeout tid w s) = nextTask s.
Proof. unfold onTimeout. destruct (find _ _); reflexivity. Qed.

Lemma Acc_run_event e s s' :
  Inv s -> Acc s -> run_event minOpt maxOpt e s = Some s' ->
  Acc s' /\ nextTask s' = nextTask s + (if is_submit e then 1 else 0).
Proof.
  intros HI H He. assert (Hw : workers s = []) by apply HI.
  destruct e; simpl in He.
  - destruct (initPending s); inversion He; subst. split; [apply (Acc_same s); [reflexivity | exact H] | simpl; lia].
  - inversion He; subst. split; [apply (Acc_same s); [reflexivity | exact H] | simpl; lia].
  - inversion He; subst. split; [apply Acc_executeTask, H|].
    rewrite executeTask_next. simpl. lia.
  - destruct (existsb _ _); inversion He; subst. split.
    + apply Acc_onMessage. apply (Acc_same s); [reflexivity | exact H].
    + rewrite onMessage_next. simpl. lia.
  - destruct (existsb _ _); inversion He; subst. split.
    + apply Acc_onTimeout. apply (Acc_same s); [reflexivity | exact H].
    + rewrite onTimeout_next. simpl. lia.
  - destruct (existsb _ _); inversion He; subst. split; [apply (Acc_same s); [reflexivity | exact H] | simpl; lia].
  - destruct (existsb _ _); inversion He; subst.
    rewrite (acc_next _ _ (acc_handleWorkerExit _ _)).
    split; [apply (Acc_same (set_exiting s (remove_first Nat.eqb w (exiting s))));
            [apply acc_handleWorkerExit | exact H] | simpl; lia].
  - destruct (initPending s); inversion He; subst.
    rewrite WorkerPoolFacts.cleanupIdleWorkers_empty by exact Hw. split; [exact H | simpl; lia].
  - destruct (taskQueue s); inversion He; subst.
    rewrite (acc_next _ _ (acc_shutdown _ Hw)).
    split; [apply (Acc_same s); [apply acc_shutdown, Hw | exact H] | simpl; lia].
Qed.

Lemma Acc_run_events es s s' :
  Inv s -> Acc s -> run_events minOpt maxOpt es s = Some s' ->
  Acc s' /\ nextTask s' = nextTask s + submits es.
Proof.
  revert s. induction es as [|e es IH]; intros s HI H Hr; simpl in Hr.
  - inversion Hr; subst. split; [exact H | unfold submits; simpl; lia].
  - destruct (run_event minOpt maxOpt e s) as [s1|] eqn:E; [|discriminate].
    destruct (Acc_run_event e s s1 HI H E) as [A1 N1].
    destruct (IH s1 (Inv_run_event e s s1 HI E) A1 Hr) as [A2 N2].
    split; [exact A2|]. rewrite N2, N1. unfold submits. simpl.
    destruct (is_submit e); simpl; lia.
Qed.

Lemma reachable_Inv_Acc es s :
  run_events minOpt maxOpt es (initPool minOpt) = Some s -> Inv s /\ Acc s /\ nextTask s = submits es.
Proof.
  intros H. split; [exact (Inv_run_events es _ _ (Inv_init) H)|].
  destruct (Acc_run_events es _ _ Inv_init Acc_init H) as [A N]. split; [exact A | exact N].
Qed.

Lemma minWorkers_pos : 0 < minWorkers minOpt.
Proof. unfold minWorkers, opt_or. destruct (Nat.eqb minOpt 0) eqn:E; [lia|]. apply Nat.eqb_neq in E. lia. Qed.


Lemma find_task_none (q : list WorkerTask) tid :
  find (fun t => Nat.eqb (task_id t) tid) q = None -> ~ In tid (map task_id q).
Proof.
  induction q as [|u q IH]; simpl; [tauto|].
  destruct (Nat.eqb (task_id u) tid) eqn:E; [discriminate|].
  intros H [Hu|Hu]; [apply Nat.eqb_neq in E; congruence | exact (IH H Hu)].
Qed.

Lemma remove_task_notin (q : list WorkerTask) t :
  NoDup (map task_id q) -> In t q -> ~ In (task_id t) (map task_id (remove_first task_eqb t q)).
Proof.
  induction q as [|u q IH]; simpl; [tauto|]. intros Hd Hin.
  inversion Hd as [|? ? Hn Hd']; subst.
  destruct (task_eqb t u) eqn:E.
  - unfold task_eqb in E. apply Nat.eqb_eq in E. rewrite E. exact Hn.
  - destruct Hin as [<-|Hin]; [unfold task_eqb in E; rewrite Nat.eqb_refl in E; discriminate|].
    simpl. intros [Hu|Hu]; [|exact (IH Hd' Hin Hu)].
    apply Hn. rewrite Hu. apply in_map, Hin.
Qed.

End Invariant.

(** X1: in every reachable state the pool's worker bookkeeping is
    consistent: no worker is both idle and waiting for the answer to a
    posted task, none waits for two answers or is idle twice, and every
    idle or busy worker is a running thread. *)
Theorem pool_worker_bookkeeping (minOpt maxOpt : nat) (es : list Event) (s : Pool)
    (H : run_events minOpt maxOpt es (initPool minOpt) = Some s) :
  NoDup (idleWorkers s ++ map fst (posted s)) /\
  incl (idleWorkers s ++ map fst (posted s)) (alive s) /\ NoDup (alive s).
Proof.
  destruct (reachable_Inv_Acc minOpt maxOpt es s H) as [(_ & Hd & Hi & Ha & _) _].
  split; [exact Hd|]. split; [exact Hi | exact Ha].
Qed.

Lemma pool_worker_bookkeeping_witness :
  exists s, run_events 1 1 two_submissions (initPool 1) = Some s /\
  (NoDup (idleWorkers s ++ map fst (posted s)) /\
   incl (idleWorkers s ++ map fst (posted s)) (alive s) /\ NoDup (alive s)).
Proof.
  eexists. split; [vm_compute; reflexivity|].
  apply (pool_worker_bookkeeping 1 1 two_submissions). vm_compute. reflexivity.
Defined.

(** X2: every task handed to [executeTask] is either still in [taskQueue]
    or counted exactly once in [completedTasks] or [failedTasks], and the
    queued task ids are distinct. *)
Theorem pool_task_accounting (minOpt maxOpt : nat) (es : list Event) (s : Pool)
    (H : run_events minOpt maxOpt es (initPool minOpt) = Some s) :
  completedTasks s + failedTasks s + length (taskQueue s) = submits es /\
  NoDup (map task_id (taskQueue s)).
Proof.
  destruct (reachable_Inv_Acc minOpt maxOpt es s H) as [_ [(A1 & A2 & _) N]].
  split; [lia | exact A2].
Qed.

Lemma pool_task_accounting_witness :
  exists s, run_events 1 1 (two_submissions ++ [Reply 0 0 false]) (initPool 1) = Some s /\
  (completedTasks s + failedTasks s + length (taskQueue s) = submits (two_submissions ++ [Reply 0 0 false]) /\
   NoDup (map task_id (taskQueue s))).
Proof.
  eexists. split; [vm_compute; reflexivity|].
  apply (pool_task_accounting 1 1 (two_submissions ++ [Reply 0 0 false])). vm_compute. reflexivity.
Defined.



(** X4: when the timer of a still-queued task fires in a reachable state,
    the task is removed from the queue and counted once as failed, and a
    new worker is created, but the timed-out worker is not terminated: it
    stays alive with its message still unanswered. A timer of a task that
    already settled changes nothing. *)
Theorem timeout_replaces_without_terminating (minOpt maxOpt : nat) (es : list Event)
    (s : Pool) (tid : nat) (w : Worker) (s' : Pool)
    (H : run_events minOpt maxOpt es (initPool minOpt) = Some s)
    (Ht : run_event minOpt maxOpt (Timeout tid w) s = Some s') :
  (In tid (map task_id (taskQueue s)) ->
     failedTasks s' = S (failedTasks s) /\ ~ In tid (map task_id (taskQueue s')) /\
     alive s' = alive s ++ [nextWorker s] /\ posted s' = posted s /\ exiting s' = exiting s) /\
  (~ In tid (map task_id (taskQueue s)) ->
     failedTasks s' = failedTasks s /\ taskQueue s' = taskQueue s /\ alive s' = alive s /\
     idleWorkers s' = idleWorkers s /\ posted s' = posted s).
Proof.
  destruct (reachable_Inv_Acc minOpt maxOpt es s H) as [_ [(_ & Hd & _) _]].
  simpl in Ht. destruct (existsb _ _); [|discriminate]. injection Ht as <-.
  unfold onTimeout. simpl.
  destruct (find (fun t => Nat.eqb (task_id t) tid) (taskQueue s)) as [t|] eqn:Ef.
  - apply find_some_In in Ef as [Hin Et]. apply Nat.eqb_eq in Et. subst tid.
    split; [|intros Hn; exfalso; apply Hn, in_map, Hin].
    intros _. simpl. split; [reflexivity|]. split; [apply remove_task_notin; assumption|].
    repeat split.
  - split; [intros Hin; exfalso; exact (find_task_none _ _ Ef Hin)|].
    intros _. simpl. repeat split.
Qed.

Lemma timeout_replaces_without_terminating_witness :
  let s0 := match run_events 1 1 [InitCreate; Register "t"%string "t.js"%string; Submit "t"%string] (initPool 1) with
            | Some s => s | None => initPool 1 end in
  exists s', run_event 1 1 (Timeout 0 0) s0 = Some s' /\
  ((In 0 (map task_id (taskQueue s0)) ->
     failedTasks s' = S (failedTasks s0) /\ ~ In 0 (map task_id (taskQueue s')) /\
     alive s' = alive s0 ++ [nextWorker s0] /\ posted s' = posted s0 /\ exiting s' = exiting s0) /\
   (~ In 0 (map task_id (taskQueue s0)) ->
     failedTasks s' = failedTasks s0 /\ taskQueue s' = taskQueue s0 /\ alive s' = alive s0 /\
     idleWorkers s' = idleWorkers s0 /\ posted s' = posted s0)).
Proof.
  intros s0. eexists. split; [subst s0; vm_compute; reflexivity|].
  apply (timeout_replaces_without_terminating 1 1 [InitCreate; Register "t"%string "t.js"%string; Submit "t"%string]
           s0 0 0); subst s0; vm_compute; reflexivity.
Defined.

(** X5: in a reachable state the ['exit'] event of a worker always spawns
    a replacement (the [workers.length < minWorkers] test sees an empty
    [workers]); so a worker that raises ['error'] is replaced twice, first
    by [handleWorkerError], then again when its ['exit'] arrives. *)
Theorem exit_always_respawns (minOpt maxOpt : nat) (es : list Event) (s : Pool) (w : Worker)
    (H : run_events minOpt maxOpt es (initPool minOpt) = Some s) :
  (forall s', run_event minOpt maxOpt (Exit w) s = Some s' -> alive s' = alive s ++ [nextWorker s]) /\
  (forall s', run_events minOpt maxOpt [Fault w; Exit w] s = Some s' ->
     alive s' = remove_first Nat.eqb w (alive s) ++ [nextWorker s; S (nextWorker s)]).
Proof.
  destruct (reachable_Inv_Acc minOpt maxOpt es s H) as [[Hw _] _].
  assert (Hm := minWorkers_pos minOpt). apply Nat.ltb_lt in Hm.
  split.
  - intros s' He. simpl in He. destruct (existsb _ _); [|discriminate]. injection He as <-.
    unfold handleWorkerExit. simpl. rewrite Hw. simpl. rewrite Hm. reflexivity.
  - intros s' He. simpl in He. destruct (existsb (Nat.eqb w) (alive s)); [|discriminate].
    unfold handleWorkerError, removeWorker, createWorker, terminate in He. simpl in He.
    rewrite existsb_app in He. simpl in He. rewrite Nat.eqb_refl, orb_true_r in He.
    injection He as <-. unfold handleWorkerExit. simpl. rewrite Hw. simpl. rewrite Hm.
    simpl. rewrite <- app_assoc. reflexivity.
Qed.

Lemma exit_always_respawns_witness :
  exists s', run_events 0 0 [Fault 0; Exit 0]
               (match run_events 0 0 [InitCreate; InitCreate] (initPool 0) with Some s => s | None => initPool 0 end)
             = Some s' /\ alive s' = [1; 2; 3].
Proof.
  destruct (exit_always_respawns 0 0 [InitCreate; InitCreate]
              (match run_events 0 0 [InitCreate; InitCreate] (initPool 0) with Some s => s | None => initPool 0 end) 0)
    as [_ H2]; [vm_compute; reflexivity|].
  eexists. split; [vm_compute; reflexivity|].
  rewrite (H2 _ (ltac:(vm_compute; reflexivity))). vm_compute. reflexivity.
Defined.

End PoolInvariants.

(** ------------------------------------------------------------------ *)
(** * Batch processor of batchProcessor.ts: batches, retries, counters *)

Module BatchExtras.
Import YtBatch.

Lemma slices_fuel_shape {A} (step fuel : nat) (l : list A) :
  0 < step -> length l <= fuel ->
  Forall (fun b => 0 < length b <= step) (slices_fuel fuel step l) /\
  (forall pre b post, slices_fuel fuel step l = pre ++ b :: post -> post <> [] -> length b = step).
Proof.
  intros Hs. revert l. induction fuel as [|f IH]; intros l Hl.
  - destruct l; [|simpl in Hl; lia]. split; [constructor|].
    intros pre b post E. destruct pre; discriminate.
  - destruct l as [|x t].
    + split; [constructor|]. intros pre b post E. destruct pre; discriminate.
    + change (slices_fuel (S f) step (x :: t))
        with (firstn step (x :: t) :: slices_fuel f step (skipn step (x :: t))).
      assert (Hl' : length (skipn step (x :: t)) <= f)
        by (rewrite length_skipn; change (length (x :: t)) with (S (length t)) in *; lia).
      destruct (IH _ Hl') as [IF IP]. split.
      * constructor; [|exact IF]. rewrite length_firstn. change (length (x :: t)) with (S (length t)). lia.
      * intros pre b post E Hp. destruct pre as [|p pre].
        -- injection E as Eb Ep. subst b.
           destruct (Nat.le_gt_cases (length (x :: t)) step) as [Hle|Hgt].
           ++ exfalso. apply Hp. rewrite <- Ep, skipn_all2 by exact Hle.
              destruct f; reflexivity.
           ++ rewrite length_firstn. lia.
        -- injection E as _ E. exact (IP pre b post E Hp).
Qed.

Lemma pwr_fuel_S n (f : nat -> bool) mr rd rc :
  pwr_fuel (S n) f mr rd rc =
  if f rc then mkRun true 0 [] else if rc <? mr then
    mkRun (run_ok (pwr_fuel n f mr rd (S rc))) (S (run_retries (pwr_fuel n f mr rd (S rc))))
          (rd :: run_delays (pwr_fuel n f mr rd (S rc)))
  else mkRun false 0 [].
Proof. reflexivity. Qed.

Lemma pwr_spec (f : nat -> bool) (mr rd : nat) : forall k rc, mr - rc = k -> rc <= mr ->
  let r := pwr_fuel (S k) f mr rd rc in
  (run_ok r = true <-> exists n, rc <= n <= mr /\ f n = true) /\
  rc + run_retries r <= mr /\
  (forall n, rc <= n < rc + run_retries r -> f n = false) /\
  (run_ok r = true -> f (rc + run_retries r) = true) /\
  (run_ok r = false -> rc + run_retries r = mr) /\
  run_delays r = repeat rd (run_retries r).
Proof.
  induction k as [|k IH]; intros rc Hk Hle; cbv zeta; rewrite pwr_fuel_S.
  - destruct (f rc) eqn:Ef; simpl.
    + split; [split; [intros _; exists rc; split; [lia | exact Ef] | reflexivity]|].
      split; [lia|]. split; [intros n Hn; lia|].
      split; [intros _; rewrite Nat.add_0_r; exact Ef|]. split; [discriminate | reflexivity].
    + assert (E : (rc <? mr) = false) by (apply Nat.ltb_ge; lia). rewrite E. simpl.
      split; [split; [discriminate | intros [n [Hn Hf]]; assert (n = rc) by lia; subst; congruence]|].
      split; [lia|]. split; [intros n Hn; lia|].
      split; [discriminate|]. split; [intros _; lia | reflexivity].
  - destruct (f rc) eqn:Ef.
    + simpl. split; [split; [intros _; exists rc; split; [lia | exact Ef] | reflexivity]|].
      split; [lia|]. split; [intros n Hn; lia|].
      split; [intros _; rewrite Nat.add_0_r; exact Ef|]. split; [discriminate | reflexivity].
    + assert (E : (rc <? mr) = true) by (apply Nat.ltb_lt; lia). rewrite E.
      destruct (IH (S rc) ltac:(lia) ltac:(lia)) as (I1 & I2 & I3 & I4 & I5 & I6).
      set (r := pwr_fuel (S k) f mr rd (S rc)) in *. simpl.
      split; [|split; [lia|]].
      * rewrite I1. split; intros [n [Hn Hf]]; exists n; split; try exact Hf; try lia.
        destruct (Nat.eq_dec n rc); [subst; congruence | lia].
      * split; [intros n Hn; destruct (Nat.eq_dec n rc); [subst; exact Ef | apply I3; lia]|].
        split; [intros Ho; rewrite <- Nat.add_succ_comm; apply I4, Ho|].
        split; [intros Ho; specialize (I5 Ho); lia|].
        rewrite I6. reflexivity.
Qed.

Lemma fold_retries {T} (perItemFn : T -> nat -> bool) cfg (l : list T) (m : Metrics) :
  retries (fold_left (fun acc x => count_item (item_run T perItemFn cfg x) acc) l m)
  <= retries m + maxRetries cfg * length l.
Proof.
  revert m. induction l as [|x t IH]; intros m; simpl; [lia|].
  specialize (IH (count_item (item_run T perItemFn cfg x) m)).
  destruct (pwr_spec (perItemFn x) (maxRetries cfg) (retryDelay cfg) (maxRetries cfg - 0) 0
              ltac:(reflexivity) ltac:(lia)) as (_ & R & _).
  assert (Ec : retries (count_item (item_run T perItemFn cfg x) m)
               = retries m + run_retries (item_run T perItemFn cfg x)) by reflexivity.
  assert (R' : run_retries (item_run T perItemFn cfg x) <= maxRetries cfg)
    by (unfold item_run, processWithRetry; simpl in R |- *; lia).
  lia.
Qed.

Lemma filter_negb_forallb {A} (p : A -> bool) l :
  forallb p l = true -> length (filter (fun x => negb (p x)) l) = 0.
Proof.
  induction l as [|x t IH]; simpl; [reflexivity|].
  intros H. apply andb_true_iff in H as [H1 H2]. rewrite H1. simpl. apply IH, H2.
Qed.

Lemma run_groups_bounds {T} (perItemFn : T -> nat -> bool) cfg gs m o m' :
  run_groups T perItemFn cfg gs m = (o, m') ->
  retries m' <= retries m + maxRetries cfg * length (concat (concat gs)) /\
  (o = Resolved -> failedItems m' = failedItems m /\
                   processedItems m' = processedItems m + length (concat (concat gs))).
Proof.
  revert m. induction gs as [|g gs IH]; intros m H; simpl in H.
  - injection H as <- <-. simpl. split; [lia | intros _; split; lia].
  - pose proof (fold_retries perItemFn cfg (group_items T g) m) as Hr.
    destruct (BatchFacts.fold_count T perItemFn cfg (group_items T g) m) as (_ & H2 & H3).
    change (concat (concat (g :: gs))) with (concat (g ++ concat gs)).
    rewrite concat_app, length_app, Nat.mul_add_distr_l.
    destruct (group_ok T perItemFn cfg g) eqn:Eg.
    + destruct (IH _ H) as [I1 I2]. unfold run_group in I1, I2. split; [unfold group_items in *; lia|].
      intros Ho. destruct (I2 Ho) as [J1 J2].
      assert (Hf : n_failed T perItemFn cfg (group_items T g) = 0).
      { unfold group_ok in Eg. unfold n_failed. apply filter_negb_forallb, Eg. }
      pose proof (BatchFacts.n_ok_failed T perItemFn cfg (group_items T g)) as Hn.
      unfold group_items in *. split; lia.
    + injection H as <- <-. unfold run_group. unfold group_items in *. split; [lia | discriminate].
Qed.

(** X6: [createBatches] (the slicing loop) cuts the items into consecutive
    non-empty batches of at most [batchSize] items that concatenate back to
    the items; only the last batch can be shorter than [batchSize]. *)
Theorem createBatches_partition {A} (step : nat) (l : list A) (batches : list (list A))
    (H : slices step l = Some batches) :
  concat batches = l /\ Forall (fun b => 0 < length b <= step) batches /\
  (forall pre b post, batches = pre ++ b :: post -> post <> [] -> length b = step).
Proof.
  split; [exact (BatchFacts.slices_concat _ _ _ H)|].
  unfold slices in H. destruct l as [|x t].
  - injection H as <-. split; [constructor|]. intros pre b post E. destruct pre; discriminate.
  - destruct step as [|k]; [discriminate|].
    assert (E : batches = slices_fuel (length (x :: t)) (S k) (x :: t)) by congruence.
    rewrite E. apply slices_fuel_shape; lia.
Qed.

Lemma createBatches_partition_witness :
  concat [[1; 2]; [3]] = [1; 2; 3] /\ Forall (fun b => 0 < length b <= 2) [[1; 2]; [3]] /\
  (forall pre b post, [[1; 2]; [3]] = pre ++ b :: post -> post <> [] -> length b = 2).
Proof. apply (createBatches_partition 2 [1; 2; 3]). reflexivity. Defined.

(** X8: [processWithRetry] tries [perItemFn] at most [maxRetries + 1]
    times: it resolves iff one of the attempts [0..maxRetries] succeeds; the
    number of retries it counts is the number of failed attempts before the
    first success (all [maxRetries] when none succeeds), each after a wait of
    [retryDelay]. *)
Theorem process_with_retry_attempts (cfg : Config) (f : nat -> bool) :
  let r := processWithRetry cfg f 0 in
  (run_ok r = true <-> exists n, n <= maxRetries cfg /\ f n = true) /\
  run_retries r <= maxRetries cfg /\
  (forall n, n < run_retries r -> f n = false) /\
  (run_ok r = true -> f (run_retries r) = true) /\
  (run_ok r = false -> run_retries r = maxRetries cfg) /\
  run_delays r = repeat (retryDelay cfg) (run_retries r).
Proof.
  destruct (pwr_spec f (maxRetries cfg) (retryDelay cfg) (maxRetries cfg - 0) 0 ltac:(reflexivity) ltac:(lia))
    as (I1 & I2 & I3 & I4 & I5 & I6).
  unfold processWithRetry. simpl in *.
  split; [rewrite I1; split; intros [n [Hn Hf]]; exists n; split; try exact Hf; lia|].
  split; [exact I2|]. split; [intros n Hn; apply I3; lia|].
  split; [exact I4|]. split; [exact I5 | exact I6].
Qed.

(** X9: a run of [process] counts at most [maxRetries] retries per item;
    when its promise resolves no item failed and every item was counted as
    processed. *)
Theorem process_metrics_bounds (T : Type) (perItemFn : T -> nat -> bool) (cfg : Config)
    (items : list T) (o : Outcome) (m : Metrics)
    (H : process T perItemFn cfg items = Some (o, m)) :
  retries m <= maxRetries cfg * length items /\
  (o = Resolved -> failedItems m = 0 /\ processedItems m = length items).
Proof.
  unfold process in H.
  destruct (slices (batchSize cfg) items) as [batches|] eqn:Eb; [|discriminate].
  destruct (slices (maxConcurrent cfg) batches) as [groups|] eqn:Eg; [|discriminate].
  injection H as H. destruct (run_groups_bounds perItemFn cfg groups _ _ _ H) as [B1 B2].
  rewrite (BatchFacts.slices_concat _ _ _ Eg), (BatchFacts.slices_concat _ _ _ Eb) in B1, B2.
  simpl in B1, B2. split; [lia|]. intros Ho. destruct (B2 Ho). split; lia.
Qed.

Lemma process_metrics_bounds_witness :
  retries (mkMetrics 2 0 1 2) <= maxRetries (newConfig (Some 1) (Some 2) None (Some 1)) * length [1; 2] /\
  (Rejected = Resolved -> failedItems (mkMetrics 2 0 1 2) = 0 /\
                          processedItems (mkMetrics 2 0 1 2) = length [1; 2]).
Proof.
  apply (process_metrics_bounds nat (fun _ _ => false) (newConfig (Some 1) (Some 2) None (Some 1)) [1; 2]
           Rejected (mkMetrics 2 0 1 2)).
  vm_compute. reflexivity.
Defined.

End BatchExtras.

(** ------------------------------------------------------------------ *)
(** * Vector batch processor of src/unnamed/part_001 *)

Module ChunkExtras.
Import ChunkBatch.

Lemma or_default_pos n d : 0 < d -> 0 < or_default n d.
Proof. unfold or_default. destruct (Nat.eqb n 0) eqn:E; [lia|]. apply Nat.eqb_neq in E. lia. Qed.

Lemma pcr_all_fail (add_ok : nat -> bool) mr rd :
  (forall n, add_ok n = false) ->
  forall k rc, or_default mr 3 - rc = k -> rc <= or_default mr 3 ->
  pcr_fuel (S k) add_ok mr rd rc = (false, map (fun i => or_default rd 1000 * 2 ^ i) (seq rc k)).
Proof.
  intros Hf. induction k as [|k IH]; intros rc Hk Hle.
  - simpl. rewrite Hf. assert (E : (rc <? or_default mr 3) = false) by (apply Nat.ltb_ge; lia).
    rewrite E. reflexivity.
  - change (pcr_fuel (S (S k)) add_ok mr rd rc) with
      (if add_ok rc then (true, []) else if rc <? or_default mr 3 then
         (fst (pcr_fuel (S k) add_ok mr rd (S rc)),
          or_default rd 1000 * 2 ^ rc :: snd (pcr_fuel (S k) add_ok mr rd (S rc)))
       else (false, [])).
    rewrite Hf. assert (E : (rc <? or_default mr 3) = true) by (apply Nat.ltb_lt; lia).
    rewrite E, (IH (S rc)) by lia. reflexivity.
Qed.

Lemma gather_fst acc splits : map fst (gather acc splits) = map fst acc ++ concat splits.
Proof.
  revert acc. induction splits as [|cs t IH]; intros acc; simpl; [rewrite app_nil_r; reflexivity|].
  rewrite IH, map_app, map_map. simpl. rewrite map_id, app_assoc. reflexivity.
Qed.

Lemma gather_snd acc splits :
  map snd (gather acc splits) =
  map snd acc ++ concat (map (fun d => repeat (length acc + length (concat (firstn d splits)))
                                             (length (nth d splits [])))
                             (seq 0 (length splits))).
Proof.
  revert acc. induction splits as [|cs t IH]; intros acc; simpl; [rewrite app_nil_r; reflexivity|].
  rewrite IH, map_app, map_map. simpl. rewrite map_const, <- app_assoc, Nat.add_0_r.
  f_equal. f_equal. rewrite <- seq_shift, map_map. f_equal.
  apply map_ext. intros d. simpl. rewrite length_app, length_app, length_map. f_equal. lia.
Qed.

Lemma failures_app f a b : failures f (a ++ b) = failures f a + failures f b.
Proof. unfold failures. rewrite filter_app, length_app. reflexivity. Qed.

Lemma failures_le f (l : list (string * nat)) : failures f l <= length l.
Proof. unfold failures. apply filter_length_le. Qed.

Lemma combine_app {A B} (a b : list A) (c d : list B) :
  length a = length c -> combine (a ++ b) (c ++ d) = combine a c ++ combine b d.
Proof.
  revert c. induction a as [|x a IH]; intros c Hl; destruct c as [|y c]; simpl in *; try lia; [reflexivity|].
  f_equal. apply IH. lia.
Qed.

Lemma run_batch_spec (proc_ok : string -> nat -> bool) bs mr bi :
  forall b ci m thr m' idx,
  run_batch proc_ok bs mr bi ci b m = (thr, m', idx) ->
  let nf := failures proc_ok (combine b (seq (bi * bs + ci) (length b))) in
  idx = seq (bi * bs + ci) (length b) /\ totalChunks m' = totalChunks m /\
  processedChunks m' + nf = processedChunks m + length b /\
  failedChunks m' = failedChunks m + nf /\ retryCount m' = retryCount m + nf /\
  (thr = true <-> 1 <= nf /\ mr < retryCount m + nf).
Proof.
  induction b as [|c t IH]; intros ci m thr m' idx H; simpl in H.
  - injection H as <- <- <-. cbv zeta. unfold failures. simpl.
    repeat split; try lia; try discriminate; intros [Hc _]; lia.
  - destruct (large_chunk proc_ok mr c (bi * bs + ci) m) as [thr1 m1] eqn:El.
    destruct (run_batch proc_ok bs mr bi (S ci) t m1) as [[thr' m2] idx'] eqn:Er.
    injection H as <- <- <-.
    destruct (IH (S ci) m1 thr' m2 idx' Er) as (I1 & I2 & I3 & I4 & I5 & I6).
    rewrite Nat.add_succ_r in I1, I3, I4, I5, I6. cbv zeta.
    change (length (c :: t)) with (S (length t)).
    change (seq (bi * bs + ci) (S (length t))) with ((bi * bs + ci) :: seq (S (bi * bs + ci)) (length t)).
    change (combine (c :: t) ((bi * bs + ci) :: seq (S (bi * bs + ci)) (length t)))
      with ((c, bi * bs + ci) :: combine t (seq (S (bi * bs + ci)) (length t))).
    unfold failures in *. simpl.
    set (nt := length (filter (fun p => negb (proc_ok (fst p) (snd p))) (combine t (seq (S (bi * bs + ci)) (length t))))) in *.
    unfold large_chunk in El.
    destruct (proc_ok c (bi * bs + ci)); injection El as <- <-; simpl in *.
    + split; [rewrite I1; reflexivity|]. split; [exact I2|]. split; [lia|]. split; [lia|]. split; [lia|].
      rewrite I6. reflexivity.
    + split; [rewrite I1; reflexivity|]. split; [exact I2|]. split; [lia|]. split; [lia|]. split; [lia|].
      destruct (Nat.ltb_spec mr (S (retryCount m))) as [Hlt|Hge]; simpl.
      * split; [intros _; lia | reflexivity].
      * rewrite I6. lia.
Qed.

Lemma run_batches_spec (proc_ok : string -> nat -> bool) bs mr (Hbs : 0 < bs) :
  forall fuel l bi m o m' idx, length l <= fuel ->
  run_batches proc_ok bs mr bi (YtBatch.slices_fuel fuel bs l) m = (o, m', idx) ->
  let nf := failures proc_ok (combine l (seq (bi * bs) (length l))) in
  totalChunks m' = totalChunks m /\
  (o = YtBatch.Rejected <-> 1 <= nf /\ mr < retryCount m + nf) /\
  (o = YtBatch.Resolved -> idx = seq (bi * bs) (length l) /\
     processedChunks m' + nf = processedChunks m + length l /\
     failedChunks m' = failedChunks m + nf /\ retryCount m' = retryCount m + nf).
Proof.
  induction fuel as [|f IH]; intros l bi m o m' idx Hl H.
  - destruct l; [|simpl in Hl; lia]. simpl in H. injection H as <- <- <-. cbv zeta. unfold failures. simpl.
    split; [reflexivity|]. split; [split; [discriminate | lia] | intros _; repeat split; lia].
  - destruct l as [|x t].
    + simpl in H. injection H as <- <- <-. cbv zeta. unfold failures. simpl.
      split; [reflexivity|]. split; [split; [discriminate | lia] | intros _; repeat split; lia].
    + set (l := x :: t) in *.
      change (YtBatch.slices_fuel (S f) bs l) with (firstn bs l :: YtBatch.slices_fuel f bs (skipn bs l)) in H.
      simpl in H.
      destruct (run_batch proc_ok bs mr bi 0 (firstn bs l) m) as [[thr m1] idx1] eqn:Eb.
      destruct (run_batch_spec proc_ok bs mr bi (firstn bs l) 0 m thr m1 idx1 Eb)
        as (B1 & B2 & B3 & B4 & B5 & B6).
      rewrite Nat.add_0_r in B1, B3, B4, B5, B6.
      set (nb := failures proc_ok (combine (firstn bs l) (seq (bi * bs) (length (firstn bs l))))) in *.
      assert (Hsplit : combine l (seq (bi * bs) (length l)) =
                       combine (firstn bs l) (seq (bi * bs) (length (firstn bs l))) ++
                       combine (skipn bs l) (seq (S bi * bs) (length (skipn bs l))) /\
                       seq (bi * bs) (length l) =
                       seq (bi * bs) (length (firstn bs l)) ++ seq (S bi * bs) (length (skipn bs l))).
      { assert (Hlen : length l = length (firstn bs l) + length (skipn bs l))
          by (rewrite <- length_app, firstn_skipn; reflexivity).
        assert (Hseq : seq (bi * bs) (length l) =
                       seq (bi * bs) (length (firstn bs l)) ++ seq (S bi * bs) (length (skipn bs l))).
        { rewrite Hlen, seq_app. f_equal.
          destruct (Nat.le_gt_cases (length l) bs) as [Hle|Hgt].
          - rewrite (skipn_all2 _ Hle). reflexivity.
          - rewrite length_firstn, Nat.min_l by lia. f_equal. simpl. lia. }
        split; [|exact Hseq].
        rewrite Hseq. rewrite <- (firstn_skipn bs l) at 1. apply combine_app. rewrite length_seq. reflexivity. }
      destruct Hsplit as [Hc Hs].
      assert (Hnb := failures_le proc_ok (combine (firstn bs l) (seq (bi * bs) (length (firstn bs l))))).
      rewrite length_combine, length_seq, Nat.min_id in Hnb. fold nb in Hnb.
      cbv zeta. rewrite Hc, failures_app. fold nb.
      destruct thr.
      * injection H as <- <- <-. split; [exact B2|].
        split; [split; [intros _; destruct (proj1 B6 eq_refl); lia | reflexivity] | discriminate].
      * destruct (run_batches proc_ok bs mr (S bi) (YtBatch.slices_fuel f bs (skipn bs l)) m1)
          as [[o2 m2] idx2] eqn:Er.
        injection H as <- <- <-.
        assert (Hl' : length (skipn bs l) <= f)
          by (rewrite length_skipn; unfold l in *; change (length (x :: t)) with (S (length t)) in *; lia).
        destruct (IH (skipn bs l) (S bi) m1 o2 m2 idx2 Hl' Er) as (R1 & R2 & R3).
        cbv zeta in R1, R2, R3.
        set (ns := failures proc_ok (combine (skipn bs l) (seq (S bi * bs) (length (skipn bs l))))) in *.
        assert (Hns := failures_le proc_ok (combine (skipn bs l) (seq (S bi * bs) (length (skipn bs l))))).
        rewrite length_combine, length_seq, Nat.min_id in Hns. fold ns in Hns.
        assert (Hnot : ~ (1 <= nb /\ mr < retryCount m + nb)) by (intros Hc'; apply B6 in Hc'; discriminate).
        split; [rewrite R1; exact B2|]. split.
        -- rewrite R2, B5. split; [intros [H1 H2]; lia|]. intros [H1 H2]. split; lia.
        -- intros Ho. destruct (R3 Ho) as (S1 & S2 & S3 & S4). split; [rewrite S1, B1, Hs; reflexivity|].
           assert (Hlen : length l = length (firstn bs l) + length (skipn bs l))
             by (rewrite <- length_app, firstn_skipn; reflexivity).
           split; [lia|]. split; lia.
Qed.

Lemma processLargeDocument_eq (proc_ok : string -> nat -> bool) (o : Options)
    (chunks : list string) (m : CMetrics) :
  processLargeDocument proc_ok o chunks m =
  Some (run_batches proc_ok (or_default (batchSize o) 10) (or_default (maxRetries o) 3) 0
          (YtBatch.slices_fuel (length chunks) (or_default (batchSize o) 10) chunks)
          (mkCMetrics (length chunks) (processedChunks m) (failedChunks m) (retryCount m))).
Proof.
  unfold processLargeDocument.
  assert (Hbs : 0 < or_default (batchSize o) 10) by (apply or_default_pos; lia).
  destruct chunks as [|c t]; [reflexivity|].
  destruct (or_default (batchSize o) 10) as [|k]; [lia | reflexivity].
Qed.

(** X10: a chunk on which [addDocument] rejects on every attempt is tried
    [1 + (maxRetries || 3)] times, so a [maxRetries] of 0 still gives three
    retries, with waits of [retryDelay * 2 ^ i]; [processChunkWithRetry]
    then returns [false] instead of rejecting. *)
Theorem chunk_retry_exhaustion (add_ok : nat -> bool) (mr rd : nat)
    (Hf : forall n, add_ok n = false) :
  processChunkWithRetry add_ok mr rd
  = (false, map (fun i => or_default rd 1000 * 2 ^ i) (seq 0 (or_default mr 3))).
Proof.
  unfold processChunkWithRetry. apply (pcr_all_fail add_ok mr rd Hf (or_default mr 3) 0); lia.
Qed.

Lemma chunk_retry_exhaustion_witness :
  processChunkWithRetry (fun _ => false) 0 0
  = (false, map (fun i => or_default 0 1000 * 2 ^ i) (seq 0 (or_default 0 3))) /\
  processChunkWithRetry (fun _ => false) 0 0 = (false, [1000; 2000; 4000]).
Proof.
  split; [apply chunk_retry_exhaustion; intros n; reflexivity | vm_compute; reflexivity].
Defined.

(** X12: in [processBatch] the [chunkIndex] of a chunk is not its position:
    all chunks of document [d] carry the same [chunkIndex], the number of
    chunks of the documents before [d]; the chunk texts are those of the
    documents in order. *)
Theorem processBatch_chunkIndex (splits : list (list string)) :
  map fst (gather [] splits) = concat splits /\
  map snd (gather [] splits)
  = concat (map (fun d => repeat (length (concat (firstn d splits))) (length (nth d splits [])))
                (seq 0 (length splits))).
Proof.
  split; [rewrite gather_fst; reflexivity|]. rewrite gather_snd. reflexivity.
Qed.

(** X13: [processLargeDocument] always settles; it rejects exactly when at
    least one [chunkProcessor] call fails and the instance's [retryCount]
    (never reset between calls, only by [initialize] or [resetMetrics]) plus
    this call's failures exceeds [maxRetries || 3]. *)
Theorem processLargeDocument_rejects_iff (proc_ok : string -> nat -> bool) (o : Options)
    (chunks : list string) (m : CMetrics) :
  exists r m' idx, processLargeDocument proc_ok o chunks m = Some (r, m', idx) /\
  let nf := failures proc_ok (combine chunks (seq 0 (length chunks))) in
  (r = YtBatch.Rejected <-> 1 <= nf /\ or_default (maxRetries o) 3 < retryCount m + nf).
Proof.
  rewrite processLargeDocument_eq.
  destruct (run_batches proc_ok (or_default (batchSize o) 10) (or_default (maxRetries o) 3) 0
              (YtBatch.slices_fuel (length chunks) (or_default (batchSize o) 10) chunks)
              (mkCMetrics (length chunks) (processedChunks m) (failedChunks m) (retryCount m)))
    as [[r m'] idx] eqn:E.
  exists r, m', idx. split; [reflexivity|].
  destruct (run_batches_spec proc_ok _ _ (or_default_pos (batchSize o) 10 ltac:(lia)) _ _ 0 _ r m' idx
              (le_n _) E) as (_ & R2 & _).
  exact R2.
Qed.

(** X14: when [processLargeDocument] resolves, [chunkProcessor] was called
    once for every chunk with its position [0 .. n-1] as index, and every
    failing call is counted once in [failedChunks] and once in [retryCount]
    (a failed chunk is not re-attempted). *)
Theorem processLargeDocument_resolved (proc_ok : string -> nat -> bool) (o : Options)
    (chunks : list string) (m m' : CMetrics) (idx : list nat)
    (H : processLargeDocument proc_ok o chunks m = Some (YtBatch.Resolved, m', idx)) :
  let nf := failures proc_ok (combine chunks (seq 0 (length chunks))) in
  idx = seq 0 (length chunks) /\ totalChunks m' = length chunks /\
  processedChunks m' + nf = processedChunks m + length chunks /\
  failedChunks m' = failedChunks m + nf /\ retryCount m' = retryCount m + nf.
Proof.
  rewrite processLargeDocument_eq in H. injection H as H.
  destruct (run_batches_spec proc_ok _ _ (or_default_pos (batchSize o) 10 ltac:(lia)) _ _ 0 _ _ m' idx
              (le_n _) H) as (R1 & _ & R3).
  destruct (R3 eq_refl) as (S1 & S2 & S3 & S4). simpl in R1, S2, S3, S4.
  split; [exact S1|]. split; [exact R1|]. split; [exact S2|]. split; [exact S3 | exact S4].
Qed.

Lemma processLargeDocument_resolved_witness :
  let nf := failures (fun _ i => negb (Nat.eqb i 1)) (combine ["a"; "b"; "c"]%string (seq 0 3)) in
  [0; 1; 2] = seq 0 (length ["a"; "b"; "c"]%string) /\ totalChunks (mkCMetrics 3 2 1 1) = length ["a"; "b"; "c"]%string /\
  processedChunks (mkCMetrics 3 2 1 1) + nf = processedChunks (mkCMetrics 0 0 0 0) + length ["a"; "b"; "c"]%string /\
  failedChunks (mkCMetrics 3 2 1 1) = failedChunks (mkCMetrics 0 0 0 0) + nf /\
  retryCount (mkCMetrics 3 2 1 1) = retryCount (mkCMetrics 0 0 0 0) + nf.
Proof.
  apply (processLargeDocument_resolved (fun _ i => negb (Nat.eqb i 1)) (newOptions 2 0 0) ["a"; "b"; "c"]%string
           (mkCMetrics 0 0 0 0) (mkCMetrics 3 2 1 1) [0; 1; 2]).
  vm_compute. reflexivity.
Defined.

Lemma videoBatch_seq {A} (videos : list A) n :
  videoBatch_processed videos (seq 0 n) = firstn n videos.
Proof.
  unfold videoBatch_processed, videoBatch_target.
  revert n. induction videos as [|x t IH]; intros n.
  - rewrite firstn_nil. induction (seq 0 n) as [|i l IHl]; simpl; [reflexivity|].
    destruct i; exact IHl.
  - destruct n as [|n]; [reflexivity|].
    change (seq 0 (S n)) with (0 :: seq 1 n). rewrite <- seq_shift. simpl. f_equal.
    rewrite <- (IH n). induction (seq 0 n) as [|i l IHl]; simpl; [reflexivity|]. rewrite IHl. reflexivity.
Qed.

(** X24: when the [processLargeDocument] call of [processVideoBatch]
    (batch size 5) resolves, [processVideo] was called for exactly the first
    [min(chunks, videos)] videos, in order: a video whose position is not
    below the number of chunks of the joined text is never processed. *)
Theorem processVideoBatch_first_videos {A} (videos : list A) (proc_ok : string -> nat -> bool)
    (chunks : list string) (m m' : CMetrics) (idx : list nat)
    (H : processLargeDocument proc_ok (newOptions 5 0 0) chunks m = Some (YtBatch.Resolved, m', idx)) :
  videoBatch_processed videos idx = firstn (length chunks) videos.
Proof.
  assert (Hpos : 0 < or_default (batchSize (newOptions 5 0 0)) 10) by (apply or_default_pos; lia).
  rewrite processLargeDocument_eq in H. injection H as H.
  destruct (run_batches_spec proc_ok _ _ Hpos _ _ 0 _ _ m' idx (le_n _) H) as (_ & _ & R3).
  destruct (R3 eq_refl) as (S1 & _). simpl in S1. rewrite S1. apply videoBatch_seq.
Qed.

Lemma processVideoBatch_first_videos_witness :
  videoBatch_processed [10; 11; 12; 13] [0; 1; 2] = firstn (length ["a"; "b"; "c"]%string) [10; 11; 12; 13].
Proof.
  apply (processVideoBatch_first_videos [10; 11; 12; 13] (fun _ _ => true) ["a"; "b"; "c"]%string
           (mkCMetrics 0 0 0 0) (mkCMetrics 3 3 0 0) [0; 1; 2]).
  vm_compute. reflexivity.
Defined.

End ChunkExtras.

(** ------------------------------------------------------------------ *)
(** * The generic cache and CacheManager: invariants and edge cases *)

Module CacheExtras.

Section Simple.
Import SimpleCache.
Variable V : Type.

Lemma sublist_trans {A} (a b c : list A) :
  WorkerPool.sublist a b -> WorkerPool.sublist b c -> WorkerPool.sublist a c.
Proof.
  intros H1 H2. revert a H1. induction H2 as [|x l l' H IH|x l l' H IH]; intros a H1.
  - exact H1.
  - constructor. apply IH. exact H1.
  - inversion H1; subst.
    + apply WorkerPool.sublist_skip. apply IH. assumption.
    + apply WorkerPool.sublist_keep. apply IH. assumption.
Qed.

Lemma filter_filter {A} (f g : A -> bool) (l : list A) :
  filter f (filter g l) = filter (fun x => g x && f x) l.
Proof.
  induction l as [|x t IH]; simpl; [reflexivity|].
  destruct (g x); simpl; [destruct (f x); simpl; rewrite IH; reflexivity | exact IH].
Qed.

Lemma map_delete_sub k (l : list (string * CacheEntry V)) : WorkerPool.sublist (map_delete V k l) l.
Proof.
  induction l as [|[k' e'] t IH]; simpl; [constructor|].
  destruct (String.eqb k' k); constructor; [apply PoolInvariants.sublist_refl | exact IH].
Qed.

Lemma evict_sub ms (l l' : list (string * CacheEntry V)) : evict V ms l = Some l' -> WorkerPool.sublist l' l.
Proof.
  induction l as [|x t IH]; intros H.
  - simpl in H. destruct (ms <=? 0)%Z; [discriminate|]. injection H as <-. constructor.
  - change (evict V ms (x :: t)) with
      (if (ms <=? Z.of_nat (length (x :: t)))%Z then evict V ms t else Some (x :: t)) in H.
    destruct (ms <=? Z.of_nat (length (x :: t)))%Z.
    + constructor. apply IH. exact H.
    + injection H as <-. apply PoolInvariants.sublist_refl.
Qed.

Lemma cleanup_loop_sub now tt (it l : list (string * CacheEntry V)) : WorkerPool.sublist (cleanup_loop V now tt it l) l.
Proof.
  revert l. induction it as [|[k e] t IH]; intros l; simpl; [apply PoolInvariants.sublist_refl|].
  eapply sublist_trans; [apply IH|].
  destruct (tt <? now - timestamp V e)%Z; [apply map_delete_sub | apply PoolInvariants.sublist_refl].
Qed.

Lemma map_set_keys_in k e (l : list (string * CacheEntry V)) : In k (map fst l) -> map fst (map_set V k e l) = map fst l.
Proof.
  induction l as [|[k' e'] t IH]; simpl; intros H; [contradiction|].
  destruct (String.eqb k' k) eqn:E; simpl; [reflexivity|].
  f_equal. apply IH. destruct H as [H|H]; [|exact H].
  subst. rewrite String.eqb_refl in E. discriminate.
Qed.

Lemma map_set_keys_notin k e (l : list (string * CacheEntry V)) : ~ In k (map fst l) -> map fst (map_set V k e l) = map fst l ++ [k].
Proof.
  induction l as [|[k' e'] t IH]; simpl; intros H; [reflexivity|].
  destruct (String.eqb k' k) eqn:E.
  - apply String.eqb_eq in E. subst. exfalso. apply H. left. reflexivity.
  - simpl. f_equal. apply IH. intros Hk. apply H. right. exact Hk.
Qed.

Lemma map_set_NoDup k e (l : list (string * CacheEntry V)) : NoDup (map fst l) -> NoDup (map fst (map_set V k e l)).
Proof.
  intros Hd. destruct (in_dec String.string_dec k (map fst l)) as [Hin|Hn].
  - rewrite map_set_keys_in by exact Hin. exact Hd.
  - rewrite map_set_keys_notin by exact Hn.
    apply (Permutation_NoDup (Permutation_cons_append (map fst l) k)). constructor; assumption.
Qed.

Lemma map_get_other k k' e (l : list (string * CacheEntry V)) : k' <> k -> map_get V k' (map_set V k e l) = map_get V k' l.
Proof.
  intros Hne. induction l as [|[k0 e0] t IH]; simpl.
  - destruct (String.eqb k k') eqn:E; [apply String.eqb_eq in E; congruence | reflexivity].
  - destruct (String.eqb k0 k) eqn:E; simpl.
    + apply String.eqb_eq in E. subst k0.
      destruct (String.eqb k k') eqn:E'; [apply String.eqb_eq in E'; congruence | reflexivity].
    + destruct (String.eqb k0 k'); [reflexivity | exact IH].
Qed.

Lemma map_get_delete_other k k' (l : list (string * CacheEntry V)) : k' <> k -> map_get V k' (map_delete V k l) = map_get V k' l.
Proof.
  intros Hne. induction l as [|[k0 e0] t IH]; simpl; [reflexivity|].
  destruct (String.eqb k0 k) eqn:E.
  - apply String.eqb_eq in E. subst k0.
    destruct (String.eqb k k') eqn:E'; [apply String.eqb_eq in E'; congruence | reflexivity].
  - simpl. destruct (String.eqb k0 k'); [reflexivity | exact IH].
Qed.

(** [map_delete] on distinct keys is a filter on the key. *)
Lemma map_delete_filter k (l : list (string * CacheEntry V)) :
  NoDup (map fst l) -> map_delete V k l = filter (fun p => negb (String.eqb (fst p) k)) l.
Proof.
  induction l as [|[k' e'] t IH]; simpl; intros Hd; [reflexivity|].
  inversion Hd as [|? ? Hn Hd']; subst.
  destruct (String.eqb k' k) eqn:E; simpl.
  - apply String.eqb_eq in E. subst k'. symmetry. apply forallb_filter_id.
    apply forallb_forall. intros [k0 e0] Hin. simpl.
    destruct (String.eqb k0 k) eqn:E0; [|reflexivity].
    apply String.eqb_eq in E0. subst. exfalso. apply Hn. apply (in_map fst) in Hin. exact Hin.
  - f_equal. apply IH. exact Hd'.
Qed.

Lemma map_delete_comm a b (l : list (string * CacheEntry V)) :
  NoDup (map fst l) -> map_delete V a (map_delete V b l) = map_delete V b (map_delete V a l).
Proof.
  intros Hd.
  assert (Hna : NoDup (map fst (map_delete V a l)))
    by (eapply PoolInvariants.sublist_NoDup; [apply PoolInvariants.sublist_map, map_delete_sub | exact Hd]).
  assert (Hnb : NoDup (map fst (map_delete V b l)))
    by (eapply PoolInvariants.sublist_NoDup; [apply PoolInvariants.sublist_map, map_delete_sub | exact Hd]).
  rewrite (map_delete_filter a (map_delete V b l) Hnb), (map_delete_filter b l Hd).
  rewrite (map_delete_filter b (map_delete V a l) Hna), (map_delete_filter a l Hd).
  rewrite !filter_filter. apply filter_ext. intros p. apply andb_comm.
Qed.


Lemma cleanup_loop_filter now tt (it l : list (string * CacheEntry V)) :
  NoDup (map fst l) ->
  cleanup_loop V now tt it l
  = filter (fun p => negb (existsb (fun q => expired V now tt q && String.eqb (fst q) (fst p)) it)) l.
Proof.
  revert l. induction it as [|[k e] t IH]; intros l Hd; simpl.
  - symmetry. apply forallb_filter_id. apply forallb_forall. intros; reflexivity.
  - unfold expired at 1. simpl.
    destruct (tt <? now - timestamp V e)%Z eqn:Ee; simpl.
    + rewrite map_delete_filter by exact Hd.
      rewrite IH.
      * rewrite filter_filter. apply filter_ext. intros [k0 e0]. simpl.
        destruct (String.eqb k k0) eqn:E1, (String.eqb k0 k) eqn:E2; try reflexivity;
          [apply String.eqb_eq in E1; subst; rewrite String.eqb_refl in E2; discriminate
          |apply String.eqb_eq in E2; subst; rewrite String.eqb_refl in E1; discriminate].
      * eapply PoolInvariants.sublist_NoDup; [apply PoolInvariants.sublist_map, PoolInvariants.sublist_filter | exact Hd].
    + apply IH. exact Hd.
Qed.

Lemma existsb_self now tt (l : list (string * CacheEntry V)) p :
  NoDup (map fst l) -> In p l ->
  existsb (fun q => expired V now tt q && String.eqb (fst q) (fst p)) l = expired V now tt p.
Proof.
  induction l as [|q t IH]; simpl; intros Hd Hp; [contradiction|].
  inversion Hd as [|? ? Hn Hd']; subst.
  destruct Hp as [<-|Hp].
  - rewrite String.eqb_refl, andb_true_r.
    destruct (expired V now tt q) eqn:Eq; [reflexivity|]. simpl.
    apply not_true_is_false. intros Hx. apply existsb_exists in Hx as [r [Hr Hx]].
    apply andb_true_iff in Hx as [_ Hx]. apply String.eqb_eq in Hx.
    apply Hn. rewrite <- Hx. apply in_map. exact Hr.
  - rewrite IH by assumption.
    destruct (String.eqb (fst q) (fst p)) eqn:E.
    + apply String.eqb_eq in E. exfalso. apply Hn. rewrite E. apply in_map. exact Hp.
    + rewrite andb_false_r. reflexivity.
Qed.

Lemma cleanup_store now (c : Cache V) :
  NoDup (map fst (cache V c)) ->
  cache V (cleanup V now c) = filter (fun p => negb (expired V now (ttl V c) p)) (cache V c).
Proof.
  intros Hd. unfold cleanup. simpl. rewrite cleanup_loop_filter by exact Hd.
  apply filter_ext_in. intros p Hp. rewrite existsb_self by assumption. reflexivity.
Qed.

Lemma map_get_In k e (l : list (string * CacheEntry V)) : map_get V k l = Some e -> In (k, e) l.
Proof.
  induction l as [|[k' e'] t IH]; simpl; intros H; [discriminate|].
  destruct (String.eqb k' k) eqn:E.
  - apply String.eqb_eq in E. subst. injection H as <-. left. reflexivity.
  - right. apply IH. exact H.
Qed.

Lemma map_get_filter f k (l : list (string * CacheEntry V)) :
  NoDup (map fst l) ->
  map_get V k (filter f l) = match map_get V k l with
                             | Some e => if f (k, e) then Some e else None
                             | None => None
                             end.
Proof.
  induction l as [|[k' e'] t IH]; simpl; intros Hd; [reflexivity|].
  inversion Hd as [|? ? Hn Hd']; subst.
  destruct (String.eqb k' k) eqn:E.
  - apply String.eqb_eq in E. subst k'.
    assert (Ht : map_get V k (filter f t) = None).
    { apply CacheFacts.map_get_absent. intros Hk. apply Hn.
      eapply PoolInvariants.sublist_In; [apply PoolInvariants.sublist_map, PoolInvariants.sublist_filter | exact Hk]. }
    destruct (f (k, e')); simpl; [rewrite String.eqb_refl; reflexivity | exact Ht].
  - destruct (f (k', e')); simpl; [rewrite E|]; apply IH; exact Hd'.
Qed.


Lemma CInv_sub (c : Cache V) l :
  CInv V c -> WorkerPool.sublist l (cache V c) -> CInv V (with_store V c l).
Proof.
  intros (H1 & H2 & H3) Hs. unfold CInv, with_store; simpl. split; [|split].
  - eapply PoolInvariants.sublist_NoDup; [apply PoolInvariants.sublist_map, Hs | exact H1].
  - pose proof (PoolInvariants.sublist_length _ _ Hs). lia.
  - intros He. specialize (H3 He). rewrite H3 in Hs. inversion Hs. reflexivity.
Qed.

Lemma CInv_run_op o (c c' : Cache V) :
  CInv V c -> run_op V o c = Some c' ->
  CInv V c' /\ enabled V c' = enabled V c /\ maxSize V c' = maxSize V c /\ ttl V c' = ttl V c.
Proof.
  intros Hi Ho. destruct o as [now key|now key v|key| |now]; simpl in Ho; injection Ho as Ho || idtac.
  - subst c'. unfold get. destruct (negb (enabled V c)); [split; [exact Hi | auto]|].
    destruct (map_get V key (cache V c)) as [e|]; [|split; [exact Hi | auto]].
    destruct (ttl V c <? now - timestamp V e)%Z; [|split; [exact Hi | auto]].
    simpl. split; [apply CInv_sub; [exact Hi | apply map_delete_sub] | auto].
  - unfold set in Ho. destruct (enabled V c) eqn:He; simpl in Ho.
    + destruct (evict V (maxSize V c) (cache V c)) as [l|] eqn:Ev; [|discriminate].
      injection Ho as <-. simpl. split; [|auto].
      destruct Hi as (H1 & H2 & H3).
      destruct (Z.le_gt_cases (maxSize V c) 0) as [Hle|Hgt];
        [rewrite CacheFacts.evict_nonpos in Ev by exact Hle; discriminate|].
      destruct (CacheFacts.evict_below V (maxSize V c) (cache V c) Hgt) as (l' & El & Hl).
      rewrite Ev in El. injection El as <-.
      assert (Hs := evict_sub _ _ _ Ev).
      split; [|split].
      * apply map_set_NoDup. eapply PoolInvariants.sublist_NoDup; [apply PoolInvariants.sublist_map, Hs | exact H1].
      * simpl. pose proof (CacheFacts.map_set_length V key (mkEntry V v now) l). lia.
      * simpl. rewrite He. discriminate.
    + injection Ho as <-. split; [exact Hi | auto].
  - subst c'. split; [apply CInv_sub; [exact Hi | apply map_delete_sub] | auto].
  - subst c'. split; [apply CInv_sub; [exact Hi | apply PoolInvariants.sublist_nil_l] | auto].
  - subst c'. split; [apply CInv_sub; [exact Hi | apply cleanup_loop_sub] | auto].
Qed.

Lemma CInv_run_ops os (c c' : Cache V) :
  CInv V c -> run_ops V os c = Some c' ->
  CInv V c' /\ enabled V c' = enabled V c /\ maxSize V c' = maxSize V c /\ ttl V c' = ttl V c.
Proof.
  revert c. induction os as [|o t IH]; intros c Hi H; simpl in H.
  - injection H as <-. auto.
  - destruct (run_op V o c) as [c1|] eqn:E; [|discriminate].
    destruct (CInv_run_op o c c1 Hi E) as (I1 & E1 & E2 & E3).
    destruct (IH c1 I1 H) as (J1 & F1 & F2 & F3). rewrite <- E1, <- E2, <- E3. auto.
Qed.

(** X15: every cache reachable from the constructor through [get], [set],
    [delete], [clear] and the hourly [cleanup] keeps its options, holds
    distinct keys, never more than [maxSize] entries (none at all for a
    [maxSize] of 0 or less, where every [set] hangs), and nothing when built
    with [enabled: false]. *)
Theorem cache_reachable_invariant (en : option bool) (ms tt : option Z) (os : list (Op V)) (c : Cache V)
    (H : run_ops V os (newCache V en ms tt) = Some c) :
  let c0 := newCache V en ms tt in
  enabled V c = enabled V c0 /\ maxSize V c = maxSize V c0 /\ ttl V c = ttl V c0 /\
  NoDup (map fst (cache V c)) /\ (Z.of_nat (length (cache V c)) <= Z.max 0 (maxSize V c0))%Z /\
  (enabled V c0 = false -> cache V c = []).
Proof.
  cbv zeta.
  assert (H0 : CInv V (newCache V en ms tt)).
  { unfold CInv. simpl. split; [constructor|]. split; [lia | reflexivity]. }
  destruct (CInv_run_ops os _ c H0 H) as ((I1 & I2 & I3) & E1 & E2 & E3).
  rewrite E2 in I2. rewrite E1 in I3. repeat split; assumption.
Qed.

(** X16: for distinct keys, [cleanup()] at time [now] keeps exactly the
    entries not older than [ttl], in their order, and a [get] made at the
    same time answers as it would have before the cleanup. *)
Theorem cleanup_keeps_unexpired (now : Z) (c : Cache V) (Hd : NoDup (map fst (cache V c))) :
  cache V (cleanup V now c) = filter (fun p => negb (ttl V c <? now - timestamp V (snd p))%Z) (cache V c) /\
  forall key, fst (get V now key (cleanup V now c)) = fst (get V now key c).
Proof.
  split; [apply cleanup_store; exact Hd|].
  intros key. assert (Hc := cleanup_store now c Hd). unfold get.
  change (enabled V (cleanup V now c)) with (enabled V c).
  change (ttl V (cleanup V now c)) with (ttl V c).
  rewrite Hc. destruct (enabled V c); simpl; [|reflexivity].
  rewrite map_get_filter by exact Hd.
  destruct (map_get V key (cache V c)) as [e|]; [|reflexivity].
  unfold expired. simpl.
  destruct (ttl V c <? now - timestamp V e)%Z eqn:Ex; simpl; rewrite ?Ex; reflexivity.
Qed.

(** X17: [set(key, v)] on a full cache evicts the oldest entry even when
    [key] is already present: overwriting a key other than the oldest leaves
    one entry fewer, and overwriting the oldest key moves it to the end. *)
Theorem set_full_evicts_oldest (now : Z) (key : string) (v : V) (c : Cache V) k0 e0 rest
    (He : enabled V c = true) (Hc : cache V c = (k0, e0) :: rest)
    (Hfull : Z.of_nat (length (cache V c)) = maxSize V c) (Hd : NoDup (map fst (cache V c))) :
  exists c', set V now key v c = Some c' /\
  map_get V key (cache V c') = Some (mkEntry V v now) /\
  (In key (map fst rest) -> map fst (cache V c') = map fst rest) /\
  (key = k0 -> map fst (cache V c') = map fst rest ++ [k0]).
Proof.
  unfold set. rewrite He. simpl. rewrite Hc.
  change (evict V (maxSize V c) ((k0, e0) :: rest)) with
    (if (maxSize V c <=? Z.of_nat (length ((k0, e0) :: rest)))%Z then evict V (maxSize V c) rest
     else Some ((k0, e0) :: rest)).
  rewrite Hc in Hfull. rewrite <- Hfull, Z.leb_refl.
  destruct rest as [|x t].
  - simpl. eexists. split; [reflexivity|]. simpl. rewrite String.eqb_refl.
    split; [reflexivity|]. split; [intros []|intros ->; reflexivity].
  - change (evict V (Z.of_nat (length ((k0, e0) :: x :: t))) (x :: t)) with
      (if (Z.of_nat (length ((k0, e0) :: x :: t)) <=? Z.of_nat (length (x :: t)))%Z
       then evict V (Z.of_nat (length ((k0, e0) :: x :: t))) t else Some (x :: t)).
    assert (E : (Z.of_nat (length ((k0, e0) :: x :: t)) <=? Z.of_nat (length (x :: t)))%Z = false)
      by (apply Z.leb_gt; simpl; lia).
    rewrite E. eexists. split; [reflexivity|]. unfold with_store; cbn [cache].
    split; [apply CacheFacts.map_get_set|]. rewrite Hc in Hd. simpl in Hd.
    inversion Hd as [|? ? Hn Hd']; subst.
    split.
    + intros Hin. apply map_set_keys_in. exact Hin.
    + intros ->. apply map_set_keys_notin. exact Hn.
Qed.

(** X18: after [delete(key)] (distinct keys) a [get(key)] at any time
    returns null while every other key answers as before; after [clear()]
    every [get] returns null. *)
Theorem delete_and_clear (c : Cache V) (key : string) (Hd : NoDup (map fst (cache V c))) :
  (forall now, fst (get V now key (delete V key c)) = None) /\
  (forall now k', k' <> key -> get V now k' (delete V key c) =
     let '(r, c1) := get V now k' c in (r, with_store V c1 (map_delete V key (cache V c1)))) /\
  (forall now k', fst (get V now k' (clear V c)) = None).
Proof.
  split; [|split].
  - intros now. unfold get, delete. simpl. destruct (enabled V c); [|reflexivity]. simpl.
    rewrite CacheFacts.map_get_delete by exact Hd. reflexivity.
  - intros now k' Hne. unfold get, delete. simpl. destruct (enabled V c); simpl; [|reflexivity].
    rewrite map_get_delete_other by exact Hne.
    destruct (map_get V k' (cache V c)) as [e|]; [|reflexivity].
    destruct (ttl V c <? now - timestamp V e)%Z; [|reflexivity].
    unfold with_store. simpl. f_equal. f_equal. apply map_delete_comm. exact Hd.
  - intros now k'. unfold get, clear. simpl. destruct (enabled V c); reflexivity.
Qed.

End Simple.

Section Manager.
Import CacheMgr.
Variable V : Type.
Variable vcount : V -> nat.






Lemma get_body_hit key ff (s : State V) cv :
  lookup V key (store V s) = Some cv ->
  get_body V key ff s =
  match lookup V (key ++ "_metadata") (store V s) with
  | Some (CMeta _ n) =>
    if Nat.leb (maxKeys V s) (length (store V s)) then (Throw "ECACHEFULL"%string, s)
    else (Ret (Some cv), mkState V (update V (key ++ "_metadata") (CMeta V (S n)) (store V s))
                           (maxKeys V s) (S (hits V s)) (misses V s) (S (queries V s)))
  | _ => (Ret (Some cv), mkState V (store V s) (maxKeys V s) (S (hits V s)) (misses V s) (S (queries V s)))
  end.
Proof.
  intros H. unfold get_body, bind, nc_get. simpl. rewrite H.
  destruct (lookup V (key ++ "_metadata") (store V s)) as [[x|n]|] eqn:Em; simpl; try reflexivity.
  unfold nc_set. destruct (Nat.leb _ _); reflexivity.
Qed.

Lemma get_body_miss key ff (s : State V) :
  lookup V key (store V s) = None ->
  get_body V key ff s =
  let s1 := mkState V (store V s) (maxKeys V s) (hits V s) (S (misses V s)) (queries V s) in
  match ff with
  | None => (Ret None, mkState V (store V s1) (maxKeys V s1) (hits V s1) (misses V s1) (S (queries V s1)))
  | Some (Throw e) => (Throw e, s1)
  | Some (Ret v) =>
    match nc_set V key (CVal V v) s1 with
    | (Throw e, s2) => (Throw e, s2)
    | (Ret _, s2) =>
      match nc_set V (key ++ "_metadata") (CMeta V 1) s2 with
      | (Throw e, s3) => (Throw e, s3)
      | (Ret _, s3) => (Ret (Some (CVal V v)),
                        mkState V (store V s3) (maxKeys V s3) (hits V s3) (misses V s3) (S (queries V s3)))
      end
    end
  end.
Proof.
  intros H. unfold get_body, bind, nc_get. simpl. rewrite H. simpl.
  destruct ff as [[v|e]|]; simpl; reflexivity.
Qed.

Lemma get_ok query filters key ff (s : State V) :
  generateKey query filters = Ret key ->
  get V query filters ff s =
  match get_body V key ff s with
  | (Ret a, s') => (Ret a, s')
  | (Throw _, s') => (Ret None, mkState V (store V s') (maxKeys V s') (hits V s') (misses V s') (S (queries V s')))
  end.
Proof. intros Hk. unfold get. rewrite Hk. reflexivity. Qed.

Lemma clean_keys_nodup mk (l : list (string * CValue V)) :
  NoDup (map fst l) -> NoDup (cleanCache_keys V vcount mk l).
Proof.
  intros Hd. unfold cleanCache_keys. destruct (at_most_70pct _ _); [constructor|].
  set (r := removeCount (length (map fst (sort_by_count (accessPatterns V vcount l))))).
  apply (NoDup_app_remove_r _ (skipn r (map fst (sort_by_count (accessPatterns V vcount l))))).
  rewrite firstn_skipn.
  apply (Permutation_NoDup (Permutation_map fst (CacheFacts.sort_perm (accessPatterns V vcount l)))).
  eapply PoolInvariants.sublist_NoDup; [apply CacheFacts.ap_keys_sub | exact Hd].
Qed.

Lemma filter_keys_count (del : list string) (l : list (string * CValue V)) :
  NoDup (map fst l) -> NoDup del -> incl del (map fst l) ->
  length (filter (fun kv => negb (existsb (String.eqb (fst kv)) del)) l) + length del = length l.
Proof.
  intros Hd Hdel Hinc.
  rewrite <- (filter_length (fun kv => negb (existsb (String.eqb (fst kv)) del)) l).
  f_equal. 
  assert (Hp : Permutation (map fst (filter (fun kv => negb (negb (existsb (String.eqb (fst kv)) del))) l)) del).
  { apply NoDup_Permutation.
    - eapply PoolInvariants.sublist_NoDup; [apply PoolInvariants.sublist_map, PoolInvariants.sublist_filter | exact Hd].
    - exact Hdel.
    - intros x. split.
      + intros Hx. apply in_map_iff in Hx as [[k v] [Ek Hin]]. simpl in Ek. subst x.
        apply filter_In in Hin as [_ Hin]. rewrite negb_involutive in Hin.
        apply existsb_exists in Hin as [y [Hy Ey]]. apply String.eqb_eq in Ey. subst y. exact Hy.
      + intros Hx. destruct (in_map_iff fst l x) as [Hm _].
        destruct (Hm (Hinc x Hx)) as [[k v] [Ek Hin]]. simpl in Ek. subst x.
        apply in_map_iff. exists (k, v). split; [reflexivity|].
        apply filter_In. split; [exact Hin|]. rewrite negb_involutive.
        apply existsb_exists. exists k. split; [exact Hx | apply String.eqb_refl]. }
  apply Permutation_length in Hp. rewrite length_map in Hp. symmetry. exact Hp.
Qed.


(** X20: when node-cache is full ([maxKeys] keys present), a [get] whose
    fetch function succeeds on an absent key still returns null: the
    [ECACHEFULL] of [cache.set] is absorbed, the value is lost, the store is
    unchanged, and the call counts one miss and one query. *)
Theorem full_store_drops_fetched_value query filters key (v : V) (s : State V)
    (Hk : generateKey query filters = Ret key) (Ha : lookup V key (store V s) = None)
    (Hfull : maxKeys V s <= length (store V s)) :
  get V query filters (Some (Ret v)) s
  = (Ret None, mkState V (store V s) (maxKeys V s) (hits V s) (S (misses V s)) (S (queries V s))).
Proof.
  rewrite get_ok with (key := key) by exact Hk. rewrite get_body_miss by exact Ha. cbv zeta.
  unfold nc_set. simpl.
  assert (E : Nat.leb (maxKeys V s) (length (store V s)) = true) by (apply Nat.leb_le; exact Hfull).
  rewrite E. reflexivity.
Qed.


(** X22: every [get] whose key can be derived counts exactly one query and
    leaves [maxKeys] alone. On an absent key it counts a miss and no hit,
    whatever the fetch function does (absent, resolving or rejecting). On a
    present key it counts no miss; it counts a hit and returns the value,
    except when the key has a metadata entry and the store is full: then
    the [cache.set] of the raised access count throws [ECACHEFULL] before
    [hits++], and [get] returns null with the store unchanged. *)
Theorem get_counts_once query filters key ff (s : State V)
    (Hk : generateKey query filters = Ret key)
    (Hnv : forall v, lookup V (key ++ "_metadata") (store V s) <> Some (CVal V v)) :
  let r := fst (get V query filters ff s) in
  let s' := snd (get V query filters ff s) in
  queries V s' = S (queries V s) /\ maxKeys V s' = maxKeys V s /\
  (lookup V key (store V s) = None -> misses V s' = S (misses V s) /\ hits V s' = hits V s) /\
  (forall cv, lookup V key (store V s) = Some cv ->
     misses V s' = misses V s /\
     ((exists n, lookup V (key ++ "_metadata") (store V s) = Some (CMeta V n)) /\
      maxKeys V s <= length (store V s) ->
        r = Ret None /\ hits V s' = hits V s /\ store V s' = store V s) /\
     (~ ((exists n, lookup V (key ++ "_metadata") (store V s) = Some (CMeta V n)) /\
         maxKeys V s <= length (store V s)) ->
        r = Ret (Some cv) /\ hits V s' = S (hits V s))).
Proof.
  cbv zeta. rewrite get_ok with (key := key) by exact Hk.
  destruct (lookup V key (store V s)) as [cv|] eqn:El.
  - rewrite (get_body_hit key ff s cv El).
    destruct (lookup V (key ++ "_metadata") (store V s)) as [[x|n]|] eqn:Em.
    + exfalso. exact (Hnv x eq_refl).
    + destruct (Nat.leb (maxKeys V s) (length (store V s))) eqn:Ef; simpl.
      * apply Nat.leb_le in Ef.
        split; [reflexivity|]. split; [reflexivity|]. split; [discriminate|].
        intros cv' Ecv. injection Ecv as <-. split; [reflexivity|]. split.
        -- intros _. split; [reflexivity|]. split; reflexivity.
        -- intros Hn. exfalso. apply Hn. split; [exists n; reflexivity | exact Ef].
      * apply Nat.leb_gt in Ef.
        split; [reflexivity|]. split; [reflexivity|]. split; [discriminate|].
        intros cv' Ecv. injection Ecv as <-. split; [reflexivity|]. split.
        -- intros [_ Hf]. lia.
        -- intros _. split; reflexivity.
    + simpl. split; [reflexivity|]. split; [reflexivity|]. split; [discriminate|].
      intros cv' Ecv. injection Ecv as <-. split; [reflexivity|]. split.
      * intros [[n Hn] _]. discriminate.
      * intros _. split; reflexivity.
  - rewrite (get_body_miss key ff s El). cbv zeta.
    destruct ff as [[v|e]|]; [| count_tac | count_tac].
    unfold nc_set. simpl.
    destruct (Nat.leb (maxKeys V s) (length (store V s))); [count_tac|].
    simpl. destruct (Nat.leb _ _); count_tac.
Qed.

(** X23: [cleanCache] deletes only entries whose value has a truthy
    [_accessCount] (the [_metadata] objects, and a fetched value carrying
    such a field): every entry without one is kept. It deletes nothing while
    [keys.length <= maxKeys * 0.7] holds in double arithmetic, and the keys
    it keeps and deletes add up to the store. That gate is not the exact
    70% bound: at 63 of 90 keys, 63 <= 0.7 * 90 holds over the reals but
    [90 * 0.7] is 62.99999999999999, so [cleanCache] runs. [Math.floor(n *
    0.3)] equals [floor(3n/10)] for every [n <= 1000]. *)
Theorem cleanCache_deletes_counted_only (mk : nat) (l : list (string * CValue V))
    (Hd : NoDup (map fst l)) :
  (forall k cv, In (k, cv) l -> entry_count V vcount cv = 0 -> In (k, cv) (cleanCache V vcount mk l)) /\
  (at_most_70pct (maxKeys_or mk) (length l) = true -> cleanCache V vcount mk l = l) /\
  length (cleanCache V vcount mk l) + length (cleanCache_keys V vcount mk l) = length l /\
  (at_most_70pct 90 63 = false /\ 10 * 63 <= 7 * 90) /\
  (forall n, n <= 1000 -> removeCount n = n * 3 / 10).
Proof.
  split; [|split; [|split; [|split]]].
  - intros k cv Hin H0. unfold cleanCache. apply filter_In. split; [exact Hin|].
    apply negb_true_iff. apply not_true_is_false. intros Hx.
    apply existsb_exists in Hx as [y [Hy Ey]]. simpl in Ey. apply String.eqb_eq in Ey. subst y.
    apply CacheFacts.clean_keys_in in Hy. apply in_map_iff in Hy as [[k' a] [Ek Hap]]. simpl in Ek. subst k'.
    destruct (CacheFacts.ap_in V vcount k a l Hap) as [cv' [Hin' [Ec Ha]]].
    rewrite (CacheFacts.nodup_same_key V k cv cv' l Hd Hin Hin') in H0. lia.
  - intros Hg. unfold cleanCache, cleanCache_keys. rewrite Hg. simpl.
    apply forallb_filter_id. apply forallb_forall. intros; reflexivity.
  - unfold cleanCache. apply filter_keys_count; [exact Hd | apply clean_keys_nodup, Hd|].
    intros k Hk. apply CacheFacts.clean_keys_in in Hk.
    eapply PoolInvariants.sublist_In; [apply CacheFacts.ap_keys_sub | exact Hk].
  - split; [vm_compute; reflexivity | lia].
  - assert (Hall : forallb (fun n => Nat.eqb (removeCount n) (n * 3 / 10)) (seq 0 1001) = true)
      by (vm_compute; reflexivity).
    intros n Hn. rewrite forallb_forall in Hall. apply Nat.eqb_eq, Hall, in_seq. lia.
Qed.

End Manager.

Local Open Scope string_scope.


Lemma cache_reachable_invariant_witness :
  exists c, SimpleCache.run_ops nat
              [SimpleCache.OpSet nat 0 "a" 1; SimpleCache.OpSet nat 1 "b" 2; SimpleCache.OpSet nat 2 "c" 3;
               SimpleCache.OpGet nat 3 "b"] (SimpleCache.newCache nat None (Some 2%Z) None) = Some c /\
  let c0 := SimpleCache.newCache nat None (Some 2%Z) None in
  SimpleCache.enabled nat c = SimpleCache.enabled nat c0 /\ SimpleCache.maxSize nat c = SimpleCache.maxSize nat c0 /\
  SimpleCache.ttl nat c = SimpleCache.ttl nat c0 /\
  NoDup (map fst (SimpleCache.cache nat c)) /\
  (Z.of_nat (length (SimpleCache.cache nat c)) <= Z.max 0 (SimpleCache.maxSize nat c0))%Z /\
  (SimpleCache.enabled nat c0 = false -> SimpleCache.cache nat c = []).
Proof.
  eexists. split; [vm_compute; reflexivity|].
  apply (cache_reachable_invariant nat None (Some 2%Z) None
           [SimpleCache.OpSet nat 0 "a" 1; SimpleCache.OpSet nat 1 "b" 2; SimpleCache.OpSet nat 2 "c" 3;
            SimpleCache.OpGet nat 3 "b"]).
  vm_compute. reflexivity.
Defined.

Lemma cleanup_keeps_unexpired_witness :
  let c := SimpleCache.mkCache nat [("a", SimpleCache.mkEntry nat 1 0); ("b", SimpleCache.mkEntry nat 2 50)]
             true 10 100 in
  SimpleCache.cache nat (SimpleCache.cleanup nat 120 c)
  = filter (fun p => negb (SimpleCache.ttl nat c <? 120 - SimpleCache.timestamp nat (snd p))%Z) (SimpleCache.cache nat c) /\
  forall key, fst (SimpleCache.get nat 120 key (SimpleCache.cleanup nat 120 c)) = fst (SimpleCache.get nat 120 key c).
Proof. intros c. apply (cleanup_keeps_unexpired nat 120 c). subst c. nodup_tac. Defined.

Lemma set_full_evicts_oldest_witness :
  let c := SimpleCache.mkCache nat [("a", SimpleCache.mkEntry nat 1 0); ("b", SimpleCache.mkEntry nat 2 0)]
             true 2 100 in
  exists c', SimpleCache.set nat 5 "b" 9 c = Some c' /\
  SimpleCache.map_get nat "b" (SimpleCache.cache nat c') = Some (SimpleCache.mkEntry nat 9 5) /\
  (In "b" (map fst [("b", SimpleCache.mkEntry nat 2 0)]) ->
     map fst (SimpleCache.cache nat c') = map fst [("b", SimpleCache.mkEntry nat 2 0)]) /\
  ("b" = "a" -> map fst (SimpleCache.cache nat c') = (map fst [("b", SimpleCache.mkEntry nat 2 0)] ++ ["a"])%list).
Proof.
  intros c. apply (set_full_evicts_oldest nat 5 "b" 9 c "a" (SimpleCache.mkEntry nat 1 0)
                     [("b", SimpleCache.mkEntry nat 2 0)]); subst c; try reflexivity.
  nodup_tac.
Defined.

Lemma delete_and_clear_witness :
  let c := SimpleCache.mkCache nat [("a", SimpleCache.mkEntry nat 1 0); ("b", SimpleCache.mkEntry nat 2 0)]
             true 10 100 in
  (forall now, fst (SimpleCache.get nat now "a" (SimpleCache.delete nat "a" c)) = None) /\
  (forall now k', k' <> "a" -> SimpleCache.get nat now k' (SimpleCache.delete nat "a" c) =
     let '(r, c1) := SimpleCache.get nat now k' c in
     (r, SimpleCache.with_store nat c1 (SimpleCache.map_delete nat "a" (SimpleCache.cache nat c1)))) /\
  (forall now k', fst (SimpleCache.get nat now k' (SimpleCache.clear nat c)) = None).
Proof. intros c. apply (delete_and_clear nat c "a"). subst c. nodup_tac. Defined.


Lemma full_store_drops_fetched_value_witness :
  let s := CacheMgr.mkState nat [("x", CacheMgr.CVal nat 1)] 1 0 0 0 in
  CacheMgr.get nat "q" CacheMgr.JNull (Some (CacheMgr.Ret 7)) s
  = (CacheMgr.Ret None, CacheMgr.mkState nat (CacheMgr.store nat s) (CacheMgr.maxKeys nat s) (CacheMgr.hits nat s)
                          (S (CacheMgr.misses nat s)) (S (CacheMgr.queries nat s))).
Proof.
  intros s. apply (full_store_drops_fetched_value nat "q" CacheMgr.JNull
    (match CacheMgr.generateKey "q" CacheMgr.JNull with CacheMgr.Ret k => k | CacheMgr.Throw _ => EmptyString end) 7 s);
    subst s; [vm_compute; reflexivity | vm_compute; reflexivity | simpl; lia].
Defined.


Lemma get_counts_once_witness :
  let key := match CacheMgr.generateKey "q" CacheMgr.JNull with CacheMgr.Ret k => k | CacheMgr.Throw _ => EmptyString end in
  let s := CacheMgr.mkState nat [(key, CacheMgr.CVal nat 7); (key ++ "_metadata", CacheMgr.CMeta nat 1)] 2 0 0 0 in
  fst (CacheMgr.get nat "q" CacheMgr.JNull None s) = CacheMgr.Ret None /\
  CacheMgr.hits nat (snd (CacheMgr.get nat "q" CacheMgr.JNull None s)) = 0.
Proof.
  intros key s.
  assert (Hk : CacheMgr.generateKey "q" CacheMgr.JNull = CacheMgr.Ret key) by (subst key; vm_compute; reflexivity).
  assert (Hnv : forall v, CacheMgr.lookup nat (key ++ "_metadata") (CacheMgr.store nat s) <> Some (CacheMgr.CVal nat v))
    by (intros v; subst s key; vm_compute; discriminate).
  destruct (get_counts_once nat "q" CacheMgr.JNull key None s Hk Hnv) as [_ [_ [_ Hhit]]].
  assert (Hl : CacheMgr.lookup nat key (CacheMgr.store nat s) = Some (CacheMgr.CVal nat 7))
    by (subst s key; vm_compute; reflexivity).
  destruct (Hhit _ Hl) as [_ [Hb _]].
  destruct Hb as [Hr [Hh _]].
  - split; [exists 1; subst s key; vm_compute; reflexivity | subst s; simpl; lia].
  - split; [exact Hr | exact Hh].
Defined.

Lemma cleanCache_deletes_counted_only_witness :
  length (CacheMgr.cleanCache nat (fun _ => 0) 10 CacheMgr.full_store)
  + length (CacheMgr.cleanCache_keys nat (fun _ => 0) 10 CacheMgr.full_store) = 10 /\
  CacheMgr.removeCount 9 = 2.
Proof.
  assert (Hd : NoDup (map fst CacheMgr.full_store)) by nodup_tac.
  destruct (cleanCache_deletes_counted_only nat (fun _ => 0) 10 CacheMgr.full_store Hd)
    as [_ [_ [Hlen [_ Hrc]]]].
  split; [exact Hlen | rewrite Hrc by lia; reflexivity].
Defined.

End CacheExtras.
